(** * A two-level hash map: shallow embedding of [src/hashmap.c]

    The container maps string keys to opaque data pointers.  A key is hashed
    to 64 bits by a caller-supplied function; the low half selects a bucket of
    the fixed primary table, the high half seeds a linear probe inside that
    bucket.  Buckets are slot arrays that start unallocated and double when
    they fill up.

    Conventions of the embedding:
    - [uint32_t] and [uint64_t] values are in [N], the truncations of the
      source are written with [N.land] and [N.shiftr];
    - a [void *] is an [N], [NULL] is [0]; a data reference is a pointer
      other than [NULL], which the code uses as the mark of a slot without
      data and as the result of a lookup that finds nothing;
    - a [size_t] is a [nat]: every [size_t] the code computes is at most
      twice a bucket capacity, and a bucket capacity is the length of an
      allocated array of slots, so none of them wraps;
    - an array is a list, read with [!!!] and written with [<[i:=x]>];
    - [assert] failures and the division by zero are outcomes of their own;
    - the results of [calloc]/[realloc] are inputs of the operation that
      calls them ([Alloc]);
    - the calls an operation makes to the [free_item] callback are returned
      as a list, in call order. *)

From Stdlib Require Import NArith Arith Lia Bool String Ascii.
From stdpp Require Import base tactics option list.

Local Open Scope nat_scope.

(** ** Outcomes of a call *)

Inductive outcome (A : Type) : Type :=
  | Ok (a : A)          (* the call returns [a] *)
  | AssertFailed        (* an [assert] aborts the program *)
  | DivisionByZero.     (* [x % 0]: undefined behaviour, a trap on most targets *)

Arguments Ok {A} a.
Arguments AssertFailed {A}.
Arguments DivisionByZero {A}.

#[global] Instance outcome_ret : MRet outcome := @Ok.

#[global] Instance outcome_bind : MBind outcome := fun A B f m =>
  match m with
  | Ok a => f a
  | AssertFailed => AssertFailed
  | DivisionByZero => DivisionByZero
  end.

(** ** Data model ([include/hashmap.h]) *)

Definition ptr := N.
Definition NULL : ptr := 0%N.

Record HashMapBucketKey : Type := {
  pkey : N;   (* uint32_t: primary key, indexes the primary table *)
  skey : N    (* uint32_t: secondary key, seeds the probe in the bucket *)
}.

Record HashMapBucketItem : Type := {
  key : HashMapBucketKey;
  data : ptr
}.

Record HashMapBucket : Type := {
  items : list HashMapBucketItem;
  count : nat;
  capacity : nat
}.

(** [table_capacity] is the field [capacity] of the C struct [HashMap];
    [free_item] records whether the callback pointer is non-NULL. *)
Record HashMap : Type := {
  table : list HashMapBucket;
  table_capacity : nat;
  free_item : bool;
  hash_function : string -> N;
  _tmp : list HashMapBucketItem;
  _tmp_capacity : nat
}.

(** A zeroed slot and a zeroed bucket, as [calloc] and [memset] leave them. *)
Definition unused_item : HashMapBucketItem :=
  {| key := {| pkey := 0; skey := 0 |}; data := NULL |}.

Definition unused_bucket : HashMapBucket :=
  {| items := []; count := 0; capacity := 0 |}.

#[global] Instance HashMapBucketItem_inhabited : Inhabited HashMapBucketItem :=
  populate unused_item.

#[global] Instance HashMapBucket_inhabited : Inhabited HashMapBucket :=
  populate unused_bucket.

(** Results of the allocator calls of one [hashmap_set]. *)
Record Alloc : Type := {
  realloc_tmp : bool;    (* [realloc(map->_tmp, ...)] succeeds *)
  alloc_items : bool     (* [realloc(node->items, ...)] or [calloc] succeeds *)
}.

Definition HASH_MAP_BUCKET_SIZE : nat := 8.

Definition KEY_EQU (a b : HashMapBucketKey) : bool :=
  (pkey a =? pkey b)%N && (skey a =? skey b)%N.

Definition is_null (p : ptr) : bool := (p =? NULL)%N.

(** [key.pkey % map->capacity] and [key.skey % node->capacity]. *)
Definition bucket_index (map : HashMap) (k : HashMapBucketKey) : nat :=
  N.to_nat (pkey k mod N.of_nat (table_capacity map)).

Definition slot_index (k : HashMapBucketKey) (cap : nat) : nat :=
  N.to_nat (skey k mod N.of_nat cap).

Definition set_table (map : HashMap) (t : list HashMapBucket) : HashMap :=
  {| table := t;
     table_capacity := table_capacity map;
     free_item := free_item map;
     hash_function := hash_function map;
     _tmp := _tmp map;
     _tmp_capacity := _tmp_capacity map |}.

Definition set_tmp (map : HashMap) (t : list HashMapBucketItem) (c : nat)
  : HashMap :=
  {| table := table map;
     table_capacity := table_capacity map;
     free_item := free_item map;
     hash_function := hash_function map;
     _tmp := t;
     _tmp_capacity := c |}.

(** ** Private functions *)

(** The loop of [_get_item]: [n] iterations are left, the next one looks at
    offset [i] ([n = capacity - i]).  [Some p] is the index of the slot
    whose address is returned, [None] is the fall-through to
    [return NULL]. *)
Fixpoint _get_item_loop (node : HashMapBucket) (k : HashMapBucketKey)
    (empty : bool) (idx i n : nat) : option nat :=
  match n with
  | 0 => None
  | S n' =>
      let p := (idx + i) mod capacity node in
      if negb (is_null (data (items node !!! p)))
         && KEY_EQU (key (items node !!! p)) k
      then Some p
      else if empty && is_null (data (items node !!! p))
      then Some p
      else _get_item_loop node k empty idx (S i) n'
  end.

(** [_get_item] returns the bucket index (what it stores through [n]) and
    the slot found in that bucket. *)
Definition _get_item (map : HashMap) (k : HashMapBucketKey) (empty : bool)
  : nat * option nat :=
  let b := bucket_index map k in
  let node := table map !!! b in
  if capacity node =? 0 then (b, None)
  else
    let idx := slot_index k (capacity node) in
    (b, _get_item_loop node k empty idx 0 (capacity node)).

(** The inner loop of the re-insertion: the first slot with no data at or
    after offset [j] of the probe sequence. *)
Fixpoint first_free (its : list HashMapBucketItem) (cap idx j n : nat)
  : option nat :=
  match n with
  | 0 => None
  | S n' =>
      let p := (idx + j) mod cap in
      if is_null (data (its !!! p)) then Some p
      else first_free its cap idx (S j) n'
  end.

(** One round of the outer loop: [_tmp[i]] is copied to the first free
    slot of its probe sequence, and to none if the inner loop runs out. *)
Definition reinsert (cap : nat) (its : list HashMapBucketItem)
    (src : HashMapBucketItem) : list HashMapBucketItem :=
  match first_free its cap (slot_index (key src) cap) 0 cap with
  | Some p => <[p := src]> its
  | None => its
  end.

(** [memcpy(dst, src, n * sizeof(HashMapBucketItem))] *)
Definition memcpy (dst src : list HashMapBucketItem) (n : nat)
  : list HashMapBucketItem :=
  take n src ++ drop n dst.

(** [_grow_node_if_needed] returns its flag and the map after the call.
    The scratch buffer [_tmp] is reallocated when it is shorter than the
    bucket, and receives a copy of the slot array; the slot array is then
    reallocated, zeroed, and refilled from the copy.  A failed [realloc]
    leaves the block it was given as it is. *)
Definition _grow_node_if_needed (a : Alloc) (map : HashMap)
    (k : HashMapBucketKey) : bool * HashMap :=
  let b := bucket_index map k in
  let node := table map !!! b in
  if count node + 1 <? capacity node then (true, map)
  else
    let new_capacity :=
      if capacity node =? 0 then HASH_MAP_BUCKET_SIZE
      else capacity node * 2 in
    if 0 <? capacity node then
      (* realloc(map->_tmp, ...) *)
      let scratch :=
        if _tmp_capacity map <? capacity node then
          if realloc_tmp a
          then Some (resize (capacity node) unused_item (_tmp map),
                     capacity node)
          else None
        else Some (_tmp map, _tmp_capacity map) in
      match scratch with
      | None => (false, map)
      | Some (tmp, tmp_capacity) =>
          (* memcpy(map->_tmp, node->items, ...) *)
          let map1 :=
            set_tmp map (memcpy tmp (items node) (capacity node))
              tmp_capacity in
          (* realloc(node->items, new_size) *)
          if alloc_items a then
            let old_capacity := capacity node in
            (* memset(node->items, 0, ...) *)
            let zeroed := replicate new_capacity unused_item in
            (* for (i = 0; i < old_capacity; i++) ... *)
            let moved :=
              foldl (reinsert new_capacity) zeroed
                    (take old_capacity (_tmp map1)) in
            (true,
             set_table map1
               (<[b := {| items := moved;
                          count := count node;
                          capacity := new_capacity |}]> (table map1)))
          else (false, map1)
      end
    else
      (* node->items = calloc(new_capacity, ...) *)
      if alloc_items a then
        (true,
         set_table map
           (<[b := {| items := replicate new_capacity unused_item;
                      count := count node;
                      capacity := new_capacity |}]> (table map)))
      else
        (false,
         set_table map
           (<[b := {| items := [];
                      count := count node;
                      capacity := capacity node |}]> (table map))).

(** The two halves of a 64-bit hash value. *)
Definition split_hash (ukey : N) : HashMapBucketKey :=
  {| pkey := N.land ukey 0xFFFFFFFF;
     skey := N.land (N.shiftr ukey 32) 0xFFFFFFFF |}.

Definition _compute_key (map : HashMap) (k : string)
  : outcome HashMapBucketKey :=
  let key_len := String.length k in
  if key_len =? 0 then AssertFailed
  else
    let ukey := hash_function map k in
    Ok (split_hash ukey).

(** ** Public API *)

Definition hashmap_create (calloc_ok : bool) (cap : nat)
    (hash : string -> N) (free : bool) : outcome (option HashMap) :=
  if cap =? 0 then AssertFailed
  else if calloc_ok then
    Ok (Some {| table := replicate cap unused_bucket;
                table_capacity := cap;
                free_item := free;
                hash_function := hash;
                _tmp := [];
                _tmp_capacity := 0 |})
  else Ok None.

(** The result is the returned flag, the map after the call and the
    pointers handed to [free_item]. *)
Definition hashmap_set (a : Alloc) (map : HashMap) (k : string) (d : ptr)
  : outcome (bool * HashMap * list ptr) :=
  ukey ← _compute_key map k;
  let '(grown, map1) := _grow_node_if_needed a map ukey in
  if negb grown then Ok (false, map1, [])
  else
    match _get_item map1 ukey true with
    | (_, None) => Ok (false, map1, [])
    | (b, Some p) =>
        let node := table map1 !!! b in
        let item := items node !!! p in
        let count' :=
          if is_null (data item) then count node + 1 else count node in
        let freed :=
          if is_null (data item) then []
          else if free_item map1 then [data item] else [] in
        Ok (true,
            set_table map1
              (<[b := {| items := <[p := {| key := ukey; data := d |}]>
                                    (items node);
                         count := count';
                         capacity := capacity node |}]> (table map1)),
            freed)
    end.

Definition hashmap_get (map : HashMap) (k : string) : outcome ptr :=
  ukey ← _compute_key map k;
  match _get_item map ukey false with
  | (_, None) => Ok NULL
  | (b, Some p) => Ok (data (items (table map !!! b) !!! p))
  end.

(** The loop of [hashmap_delete].  [i] is incremented at the end of the
    body and again by the loop header, so the next iteration looks at offset
    [i + 2]; [n] counts what is left of [capacity - i]. *)
Fixpoint hashmap_delete_loop (node : HashMapBucket) (k : HashMapBucketKey)
    (idx i n : nat) : option nat :=
  match n with
  | 0 => None
  | S n' =>
      let p := (idx + i) mod capacity node in
      if is_null (data (items node !!! p)) then None
      else if KEY_EQU (key (items node !!! p)) k then Some p
      else hashmap_delete_loop node k idx (S (S i)) (Nat.pred n')
  end.

(** [out] is [None] for a NULL [data] argument and [Some v] for a pointer to
    a cell that holds [v]; the cell's content after the call is returned.

    [node] is a by-value copy of the bucket struct.  Its field [items] is
    the pointer of the container's bucket, so a store to a slot of
    [node.items] is a store to the container's slot array; its field
    [count] is the copy's own, so [node.count--] does not reach the
    container.  [node'] is the copy when the function returns. *)
Definition hashmap_delete (map : HashMap) (k : string) (out : option ptr)
  : outcome (bool * option ptr * HashMap) :=
  ukey ← _compute_key map k;
  let b := bucket_index map ukey in
  let node := table map !!! b in
  if capacity node =? 0 then DivisionByZero
  else
    let idx := slot_index ukey (capacity node) in
    match hashmap_delete_loop node ukey idx 0 (capacity node) with
    | None => Ok (false, out, map)
    | Some p =>
        let out' :=
          match out with
          | Some _ => Some (data (items node !!! p))
          | None => None
          end in
        let node' :=
          {| items := <[p := unused_item]> (items node);
             count := count node - 1;
             capacity := capacity node |} in
        Ok (true, out',
            set_table map
              (<[b := {| items := items node';
                         count := count (table map !!! b);
                         capacity := capacity (table map !!! b) |}]>
                 (table map)))
    end.

(** The calls made to the visitor, in call order. *)
Definition hashmap_iterate (map : HashMap) : list (HashMapBucketKey * ptr) :=
  flat_map
    (fun node =>
       if capacity node =? 0 then []
       else
         flat_map
           (fun it => if is_null (data it) then [] else [(key it, data it)])
           (take (capacity node) (items node)))
    (take (table_capacity map) (table map)).

(** ** A hash function with predictable collisions ([test/gemini-test.c])

    The primary key is the first character, the secondary key the sum of the
    others (7-bit characters, so [char] is not negative). *)
Fixpoint sum_chars (s : string) : N :=
  match s with
  | EmptyString => 0
  | String c rest => (N_of_ascii c + sum_chars rest)%N
  end.

Definition collision_hash (k : string) : N :=
  match k with
  | EmptyString => 0
  | String c rest =>
      N.lor (N_of_ascii c) (N.shiftl (N.land (sum_chars rest) 0xFFFFFFFF) 32)
  end.

(** [hashmap_destroy]: the calls made to [free_item], in call order.  A
    bucket whose [items] pointer is NULL is a bucket without slot array,
    [[]] here.  The blocks handed to [free] (the slot arrays, the scratch
    buffer, the container) are not part of the model. *)
Definition hashmap_destroy (map : HashMap) : list ptr :=
  flat_map
    (fun node =>
       match items node with
       | [] => []
       | _ :: _ =>
           if free_item map then
             flat_map
               (fun it => if is_null (data it) then [] else [data it])
               (take (capacity node) (items node))
           else []
       end)
    (take (table_capacity map) (table map)).

(** * Vocabulary of the properties *)

(** ** Slots and scans *)

(** A slot is occupied when it holds data; it is occupied by [k] when its
    key is [k] as well. *)
Definition occupied (it : HashMapBucketItem) : bool :=
  negb (is_null (data it)).

Definition occupied_by (k : HashMapBucketKey) (it : HashMapBucketItem)
  : bool :=
  occupied it && KEY_EQU (key it) k.

(** The test of one iteration of [_get_item]. *)
Definition hit (empty : bool) (k : HashMapBucketKey)
    (it : HashMapBucketItem) : bool :=
  occupied_by k it || (empty && is_null (data it)).

(** First index in [i, i + n) where [f] holds. *)
Fixpoint find_from (f : nat -> bool) (i n : nat) : option nat :=
  match n with
  | 0 => None
  | S n' => if f i then Some i else find_from f (S i) n'
  end.

(** [probe cap k j] is the slot at offset [j] of the probe sequence of
    [k] in a bucket of [cap] slots. *)
Definition probe (cap : nat) (k : HashMapBucketKey) (j : nat) : nat :=
  (slot_index k cap + j) mod cap.

(** Number of occupied slots. *)
Fixpoint occupancy (its : list HashMapBucketItem) : nat :=
  match its with
  | [] => 0
  | it :: its' => (if occupied it then 1 else 0) + occupancy its'
  end.

#[global] Instance HashMapBucketKey_eq_dec : EqDecision HashMapBucketKey.
Proof. solve_decision. Defined.

(** ** Well-formed containers *)

(** The slot array of a bucket has [capacity] slots and the primary table
    has [table_capacity] buckets, which [hashmap_create] asserts to be
    positive. *)
Definition wf_bucket (node : HashMapBucket) : Prop :=
  length (items node) = capacity node.

Definition wf_map (map : HashMap) : Prop :=
  0 < table_capacity map /\
  length (table map) = table_capacity map /\
  Forall wf_bucket (table map).

Definition wf_bucketb (node : HashMapBucket) : bool :=
  length (items node) =? capacity node.

Definition wf_mapb (map : HashMap) : bool :=
  (0 <? table_capacity map)
  && (length (table map) =? table_capacity map)
  && forallb wf_bucketb (table map).

(** What [_grow_node_if_needed] makes of the primary table, for the bucket
    [b] of the key: [grow_result map b grown t] relates the map before the
    call to the returned flag and the table after it. *)
Inductive grow_result (map : HashMap) (b : nat)
  : bool -> list HashMapBucket -> Prop :=
  | grow_room :
      count (table map !!! b) + 1 < capacity (table map !!! b) ->
      grow_result map b true (table map)
  | grow_failed :
      capacity (table map !!! b) <= count (table map !!! b) + 1 ->
      grow_result map b false (table map)
  | grow_first :
      capacity (table map !!! b) = 0 ->
      grow_result map b true
        (<[b := {| items := replicate HASH_MAP_BUCKET_SIZE unused_item;
                   count := count (table map !!! b);
                   capacity := HASH_MAP_BUCKET_SIZE |}]> (table map))
  | grow_double :
      0 < capacity (table map !!! b) <= count (table map !!! b) + 1 ->
      grow_result map b true
        (<[b := {| items :=
                     foldl (reinsert (capacity (table map !!! b) * 2))
                       (replicate (capacity (table map !!! b) * 2)
                          unused_item)
                       (items (table map !!! b));
                   count := count (table map !!! b);
                   capacity := capacity (table map !!! b) * 2 |}]>
           (table map)).

(** ** Reachable containers *)

Inductive Op : Type :=
  | OpSet (a : Alloc) (k : string) (d : ptr)
  | OpGet (k : string)
  | OpDelete (k : string) (out : option ptr)
  | OpIterate.

(** The container after one operation.  [hashmap_get] and
    [hashmap_iterate] have no access to anything they could change. *)
Definition apply_op (map : HashMap) (o : Op) : outcome HashMap :=
  match o with
  | OpSet a k d => r ← hashmap_set a map k d; Ok r.1.2
  | OpGet k => _ ← hashmap_get map k; Ok map
  | OpDelete k out => r ← hashmap_delete map k out; Ok r.2
  | OpIterate => let _ := hashmap_iterate map in Ok map
  end.

Fixpoint run (map : HashMap) (ops : list Op) : outcome HashMap :=
  match ops with
  | [] => Ok map
  | o :: ops' => map' ← apply_op map o; run map' ops'
  end.

Definition reachable (map : HashMap) : Prop :=
  exists cap hash free map0 ops,
    hashmap_create true cap hash free = Ok (Some map0) /\
    run map0 ops = Ok map.

(** What holds of every bucket of a reachable container: the slot array
    has [capacity] slots, at most [count] of them are occupied, and the
    bucket is either unallocated or has room and a capacity that is the base
    size doubled some number of times. *)
Definition bucket_inv (node : HashMapBucket) : Prop :=
  wf_bucket node /\
  occupancy (items node) <= count node /\
  (capacity node = 0 /\ count node = 0 \/
   count node < capacity node /\
   exists e, capacity node = 2 ^ e * HASH_MAP_BUCKET_SIZE).

Definition map_inv (map : HashMap) : Prop :=
  0 < table_capacity map /\
  length (table map) = table_capacity map /\
  Forall bucket_inv (table map).

(** ** Buckets filled by insertion only *)

(** Every occupied slot is reached from the start slot of its key through
    occupied slots only. *)
Definition chained (cap : nat) (its : list HashMapBucketItem) : Prop :=
  forall p, occupied (its !!! p) = true ->
    exists j, j < cap /\ probe cap (key (its !!! p)) j = p /\
      forall j', j' < j ->
        occupied (its !!! probe cap (key (its !!! p)) j') = true.

(** No two occupied slots hold the same key. *)
Definition distinct_keys (its : list HashMapBucketItem) : Prop :=
  forall p q,
    occupied (its !!! p) = true -> occupied (its !!! q) = true ->
    key (its !!! p) = key (its !!! q) -> p = q.

(** The occupied slots of [its] are the entries of [l] that have data. *)
Definition holds (its l : list HashMapBucketItem) : Prop :=
  (forall p, occupied (its !!! p) = true -> its !!! p ∈ l) /\
  (forall it, it ∈ l -> occupied it = true -> exists p, its !!! p = it).

Definition stores (cap : nat) (l its : list HashMapBucketItem) : Prop :=
  length its = cap /\ chained cap its /\ distinct_keys its /\ holds its l.

(** ** Runs of insertions into one bucket *)

(** [hashmap_set] for each call in turn; [None] as soon as a call does not
    return true. *)
Fixpoint set_all (map : HashMap) (calls : list (Alloc * string * ptr))
  : option HashMap :=
  match calls with
  | [] => Some map
  | (a, k, d) :: rest =>
      match hashmap_set a map k d with
      | Ok (true, map', _) => set_all map' rest
      | _ => None
      end
  end.

(** The capacity of a bucket after [n] insertions of new keys: the growth
    rule of [_grow_node_if_needed] applied before each of them. *)
Fixpoint capacity_after (n : nat) : nat :=
  match n with
  | 0 => 0
  | S n' =>
      let c := capacity_after n' in
      if n' + 1 <? c then c
      else if c =? 0 then HASH_MAP_BUCKET_SIZE else c * 2
  end.

Definition call_key (hash : string -> N) (c : Alloc * string * ptr)
  : HashMapBucketKey :=
  split_hash (hash c.1.2).

Definition entry (hash : string -> N) (c : Alloc * string * ptr)
  : HashMapBucketItem :=
  {| key := call_key hash c; data := c.2 |}.

(** Bucket [b] of [map] holds the calls [done], and nothing else. *)
Definition filled (hash : string -> N) (tc : nat) (map : HashMap) (b : nat)
    (done : list (Alloc * string * ptr)) : Prop :=
  wf_map map /\
  hash_function map = hash /\
  table_capacity map = tc /\
  stores (capacity (table map !!! b)) (entry hash <$> done)
    (items (table map !!! b)) /\
  count (table map !!! b) = length done /\
  capacity (table map !!! b) = capacity_after (length done) /\
  forall c, c ∈ done -> c.1.2 <> EmptyString.

(** ** Concrete containers and scripts *)

Definition all_ok : Alloc := {| realloc_tmp := true; alloc_items := true |}.

Definition no_memory : Alloc :=
  {| realloc_tmp := false; alloc_items := false |}.

(** The container that [hashmap_create(1, collision_hash, free)] returns. *)
Definition one_bucket : HashMap :=
  {| table := [unused_bucket];
     table_capacity := 1;
     free_item := true;
     hash_function := collision_hash;
     _tmp := [];
     _tmp_capacity := 0 |}.

(** The container after a script, or the initial one if the script stops. *)
Definition exec (map : HashMap) (ops : list Op) : HashMap :=
  match run map ops with
  | Ok map' => map'
  | _ => map
  end.

(** The keys of the growth test of [test/gemini-test.c]. *)
Definition nine_calls : list (Alloc * string * ptr) :=
  [(all_ok, "a_key_0"%string, 10%N); (all_ok, "a_key_1"%string, 11%N);
   (all_ok, "a_key_2"%string, 12%N); (all_ok, "a_key_3"%string, 13%N);
   (all_ok, "a_key_4"%string, 14%N); (all_ok, "a_key_5"%string, 15%N);
   (all_ok, "a_key_6"%string, 16%N); (all_ok, "a_key_7"%string, 17%N);
   (all_ok, "a_key_8"%string, 18%N)].

(** Turn the outcomes of the tests on sizes into arithmetic facts. *)
Ltac nat_tests :=
  repeat match goal with
  | H : (_ <? _) = true |- _ => apply Nat.ltb_lt in H
  | H : (_ <? _) = false |- _ => apply Nat.ltb_ge in H
  | H : (_ =? _) = true |- _ => apply Nat.eqb_eq in H
  | H : (_ =? _) = false |- _ => apply Nat.eqb_neq in H
  end.


(** ** Entries *)

(** The calls that the loop over the slots of one bucket makes to the
    visitor of [hashmap_iterate]. *)
Definition entries (its : list HashMapBucketItem)
  : list (HashMapBucketKey * ptr) :=
  flat_map (fun it => if is_null (data it) then [] else [(key it, data it)])
    its.

(** Every entry is in the bucket that its key selects. *)
Definition homed (map : HashMap) : Prop :=
  forall b e,
    e ∈ entries (items (table map !!! b)) -> bucket_index map e.1 = b.

(** Every allocation of the call succeeds. *)
Definition succeeds (a : Alloc) : Prop :=
  realloc_tmp a = true /\ alloc_items a = true.

(** ** The account of a script *)

(** The pointers that the calls of a script hand to the container and the
    pointers that the container hands on. *)
Record Account : Type := {
  stored : list ptr;    (* data of the calls of [hashmap_set] that
                           returned true, NULL left out *)
  freed : list ptr;     (* arguments of the calls of [free_item] *)
  removed : list ptr    (* what the calls of [hashmap_delete] that returned
                           true wrote to their out-parameter *)
}.

Definition no_account : Account :=
  {| stored := []; freed := []; removed := [] |}.

Definition add_account (x y : Account) : Account :=
  {| stored := stored x ++ stored y;
     freed := freed x ++ freed y;
     removed := removed x ++ removed y |}.

Definition account_op (map : HashMap) (o : Op) : outcome (HashMap * Account) :=
  match o with
  | OpSet a k d =>
      '(r, map', fr) ← hashmap_set a map k d;
      Ok (map',
          {| stored := if (r : bool) && negb (is_null d) then [d] else [];
             freed := fr;
             removed := [] |})
  | OpGet k => _ ← hashmap_get map k; Ok (map, no_account)
  | OpDelete k out =>
      '(r, out', map') ← hashmap_delete map k out;
      Ok (map',
          {| stored := [];
             freed := [];
             removed := if (r : bool) then from_option (fun v => [v]) [] out'
                        else [] |})
  | OpIterate => Ok (map, no_account)
  end.

Fixpoint account (map : HashMap) (ops : list Op)
  : outcome (HashMap * Account) :=
  match ops with
  | [] => Ok (map, no_account)
  | o :: ops' =>
      '(map1, x) ← account_op map o;
      '(map', y) ← account map1 ops';
      Ok (map', add_account x y)
  end.

(** The deletions of the script have an out-parameter. *)
Definition with_out (o : Op) : Prop :=
  match o with
  | OpDelete _ None => False
  | _ => True
  end.

(** ** Counts *)

(** The script has no [hashmap_delete] and stores no NULL. *)
Definition only_stores (o : Op) : Prop :=
  match o with
  | OpSet _ _ d => d <> NULL
  | OpDelete _ _ => False
  | _ => True
  end.

(** The slots of a bucket are at most the base size or twice the count
    plus two. *)
Definition space_bound (node : HashMapBucket) : Prop :=
  capacity node <= Nat.max HASH_MAP_BUCKET_SIZE (2 * count node + 2).

(** The count of a bucket is the number of its slots with data. *)
Definition exact_count (node : HashMapBucket) : Prop :=
  count node = occupancy (items node).
(** * Properties *)

(** ** Scans *)

Lemma find_from_Some f i n j :
  find_from f i n = Some j <->
  i <= j < i + n /\ f j = true /\ forall j', i <= j' < j -> f j' = false.
Proof.
  revert i. induction n as [|n IH]; intros i; simpl.
  - split; [discriminate | lia].
  - destruct (f i) eqn:Hfi.
    + split.
      * intros [= <-]. repeat split; [lia | lia | done | lia].
      * intros (Hj & Hfj & Hbefore).
        destruct (decide (i = j)) as [-> | Hne]; [done |].
        rewrite (Hbefore i) in Hfi by lia. discriminate.
    + rewrite IH. split.
      * intros (Hj & Hfj & Hbefore). repeat split; [lia | lia | done |].
        intros j' Hj'. destruct (decide (j' = i)) as [-> | Hne]; [done |].
        apply Hbefore. lia.
      * intros (Hj & Hfj & Hbefore).
        assert (i <> j) by (intros ->; congruence).
        repeat split; [lia | lia | done |].
        intros j' Hj'. apply Hbefore. lia.
Qed.

Lemma find_from_None f i n :
  find_from f i n = None <-> forall j, i <= j < i + n -> f j = false.
Proof.
  revert i. induction n as [|n IH]; intros i; simpl.
  - split; [lia | done].
  - destruct (f i) eqn:Hfi.
    + split; [discriminate |]. intros H. rewrite H in Hfi by lia. discriminate.
    + rewrite IH. split.
      * intros H j Hj. destruct (decide (j = i)) as [-> | Hne]; [done |].
        apply H. lia.
      * intros H j Hj. apply H. lia.
Qed.

Lemma find_from_is_Some f i n j :
  i <= j < i + n -> f j = true -> is_Some (find_from f i n).
Proof.
  intros Hj Hfj. destruct (find_from f i n) eqn:E; [eauto |].
  rewrite find_from_None in E. rewrite E in Hfj by done. discriminate.
Qed.

Lemma KEY_EQU_eq a b : KEY_EQU a b = true <-> a = b.
Proof.
  unfold KEY_EQU. rewrite andb_true_iff, !N.eqb_eq.
  destruct a, b; simpl. split; [intros [-> ->]; done | intros [= -> ->]; done].
Qed.

Lemma KEY_EQU_refl a : KEY_EQU a a = true.
Proof. by apply KEY_EQU_eq. Qed.

Lemma is_null_true p : is_null p = true <-> p = NULL.
Proof. apply N.eqb_eq. Qed.

Lemma is_null_false p : is_null p = false <-> p <> NULL.
Proof. apply N.eqb_neq. Qed.

Lemma occupied_true it : occupied it = true <-> data it <> NULL.
Proof. unfold occupied. rewrite negb_true_iff. apply is_null_false. Qed.

Lemma occupied_false it : occupied it = false <-> data it = NULL.
Proof. unfold occupied. rewrite negb_false_iff. apply is_null_true. Qed.

Lemma occupied_by_true k it :
  occupied_by k it = true <-> data it <> NULL /\ key it = k.
Proof.
  unfold occupied_by. by rewrite andb_true_iff, occupied_true, KEY_EQU_eq.
Qed.

(** The loops of the source are searches along the probe sequence. *)
Lemma _get_item_loop_find node k empty idx i n :
  _get_item_loop node k empty idx i n =
  (fun j => (idx + j) mod capacity node) <$>
    find_from
      (fun j => hit empty k (items node !!! ((idx + j) mod capacity node)))
      i n.
Proof.
  revert i. induction n as [|n IH]; intros i; simpl; [done |].
  unfold hit at 1, occupied_by, occupied.
  destruct (negb _ && KEY_EQU _ _); simpl; [done |].
  destruct (empty && _); simpl; [done |]. apply IH.
Qed.

Lemma first_free_find its cap idx j n :
  first_free its cap idx j n =
  (fun j => (idx + j) mod cap) <$>
    find_from (fun j => is_null (data (its !!! ((idx + j) mod cap)))) j n.
Proof.
  revert j. induction n as [|n IH]; intros j; simpl; [done |].
  destruct (is_null _); simpl; [done |]. apply IH.
Qed.

(** ** Indices and occupancy *)

Lemma slot_index_lt k cap : 0 < cap -> slot_index k cap < cap.
Proof.
  intros Hcap. unfold slot_index.
  assert (skey k mod N.of_nat cap < N.of_nat cap)%N
    by (apply N.mod_upper_bound; lia).
  lia.
Qed.

Lemma bucket_index_lt map k :
  0 < table_capacity map -> bucket_index map k < table_capacity map.
Proof.
  intros Hcap. unfold bucket_index.
  assert (pkey k mod N.of_nat (table_capacity map)
          < N.of_nat (table_capacity map))%N
    by (apply N.mod_upper_bound; lia).
  lia.
Qed.

Lemma bucket_index_set_table map t k :
  bucket_index (set_table map t) k = bucket_index map k.
Proof. done. Qed.

Lemma probe_lt cap k j : 0 < cap -> probe cap k j < cap.
Proof. intros. apply Nat.mod_upper_bound. lia. Qed.

(** The probe sequence from any start reaches every slot of the bucket. *)
Lemma probe_covers cap idx q :
  idx < cap -> q < cap -> exists j, j < cap /\ (idx + j) mod cap = q.
Proof.
  intros Hidx Hq. destruct (le_lt_dec idx q) as [Hle | Hlt].
  - exists (q - idx). split; [lia |].
    replace (idx + (q - idx)) with q by lia. by apply Nat.mod_small.
  - exists (q + cap - idx). split; [lia |].
    replace (idx + (q + cap - idx)) with (q + 1 * cap) by lia.
    rewrite Nat.Div0.mod_add. by apply Nat.mod_small.
Qed.

Lemma occupied_lookup_lt (its : list HashMapBucketItem) p :
  occupied (its !!! p) = true -> p < length its.
Proof.
  intros Hocc. destruct (decide (p < length its)) as [|Hge]; [done |].
  rewrite list_lookup_total_alt, (lookup_ge_None_2 its p) in Hocc by lia.
  discriminate.
Qed.

Lemma occupancy_insert its p x :
  p < length its ->
  occupancy (<[p := x]> its) + (if occupied (its !!! p) then 1 else 0) =
  occupancy its + (if occupied x then 1 else 0).
Proof.
  revert p. induction its as [|it its IH]; intros p Hp; simpl in *; [lia |].
  destruct p as [|p]; simpl.
  - change ((it :: its) !!! 0) with it. lia.
  - change ((it :: its) !!! S p) with (its !!! p).
    specialize (IH p). lia.
Qed.

Lemma occupancy_replicate_unused n : occupancy (replicate n unused_item) = 0.
Proof. induction n as [|n IH]; simpl; [done | by rewrite IH]. Qed.

Lemma occupancy_free_slot its :
  occupancy its < length its ->
  exists q, q < length its /\ occupied (its !!! q) = false.
Proof.
  induction its as [|it its IH]; simpl; [lia |].
  destruct (occupied it) eqn:Hocc.
  - intros Hlt. destruct IH as (q & Hq & Hfree); [lia |].
    exists (S q). split; [lia | done].
  - intros _. exists 0. split; [lia | done].
Qed.

(** ** The re-insertion loop: sizes *)

Lemma first_free_free its cap idx j n p :
  first_free its cap idx j n = Some p -> occupied (its !!! p) = false.
Proof.
  rewrite first_free_find. intros (j' & Hfind & ->)%fmap_Some.
  apply find_from_Some in Hfind as (_ & Hnull & _).
  unfold occupied. by rewrite Hnull.
Qed.

Lemma length_reinsert cap its src : length (reinsert cap its src) = length its.
Proof.
  unfold reinsert. destruct (first_free _ _ _ _ _); [apply length_insert | done].
Qed.

Lemma length_foldl_reinsert cap todo its :
  length (foldl (reinsert cap) its todo) = length its.
Proof.
  revert its. induction todo as [|x todo IH]; intros its; simpl; [done |].
  by rewrite IH, length_reinsert.
Qed.

Lemma occupancy_reinsert cap its src :
  occupancy (reinsert cap its src)
  <= occupancy its + (if occupied src then 1 else 0).
Proof.
  unfold reinsert. destruct (first_free _ _ _ _ _) as [p|] eqn:Hfree; [|lia].
  apply first_free_free in Hfree.
  destruct (decide (p < length its)) as [Hp | Hp].
  - pose proof (occupancy_insert its p src Hp) as Hins.
    rewrite Hfree in Hins. lia.
  - rewrite list_insert_ge by lia. lia.
Qed.

Lemma occupancy_foldl_reinsert cap todo its :
  occupancy (foldl (reinsert cap) its todo) <= occupancy its + occupancy todo.
Proof.
  revert its. induction todo as [|x todo IH]; intros its; simpl; [lia |].
  pose proof (IH (reinsert cap its x)).
  pose proof (occupancy_reinsert cap its x). lia.
Qed.

(** ** Well-formed containers *)

Lemma wf_map_bucket map b :
  wf_map map -> b < table_capacity map -> wf_bucket (table map !!! b).
Proof.
  intros (_ & Hlen & Hall) Hb.
  apply Forall_lookup_total_1; [done | lia].
Qed.

Lemma wf_mapb_true map : wf_mapb map = true -> wf_map map.
Proof.
  unfold wf_mapb, wf_map. rewrite !andb_true_iff.
  intros [[Hpos Hlen] Hall]. nat_tests. repeat split; [done | done |].
  apply Forall_forall. intros node Hnode%list_elem_of_In.
  rewrite forallb_forall in Hall. specialize (Hall node Hnode).
  unfold wf_bucketb in Hall. by nat_tests.
Qed.

Lemma hashmap_create_wf cap hash free map :
  hashmap_create true cap hash free = Ok (Some map) -> wf_map map.
Proof.
  unfold hashmap_create. destruct (cap =? 0) eqn:Hcap; [discriminate |].
  nat_tests. intros [= <-]. unfold wf_map; simpl.
  rewrite length_replicate. repeat split; [lia |].
  by apply Forall_replicate.
Qed.

Lemma one_bucket_created :
  hashmap_create true 1 collision_hash true = Ok (Some one_bucket).
Proof. reflexivity. Qed.

Lemma _compute_key_Ok map k ukey :
  _compute_key map k = Ok ukey ->
  k <> EmptyString /\ ukey = split_hash (hash_function map k).
Proof.
  unfold _compute_key. destruct k; simpl; [discriminate |].
  intros [= <-]. done.
Qed.

Lemma _compute_key_ext map map' k :
  hash_function map' = hash_function map ->
  _compute_key map' k = _compute_key map k.
Proof. unfold _compute_key. by intros ->. Qed.

(** ** Growth *)

(** [_grow_node_if_needed] changes neither the shape of the primary table
    nor the callbacks, whatever it returns. *)
Lemma _grow_node_if_needed_fields a map k :
  let map' := (_grow_node_if_needed a map k).2 in
  table_capacity map' = table_capacity map /\
  hash_function map' = hash_function map /\
  free_item map' = free_item map /\
  length (table map') = length (table map).
Proof.
  unfold _grow_node_if_needed.
  repeat (case_match; simpl); rewrite ?length_insert; done.
Qed.

(** The four ways through [_grow_node_if_needed]. *)
Lemma _grow_node_if_needed_result a map k :
  wf_map map ->
  grow_result map (bucket_index map k)
    (_grow_node_if_needed a map k).1
    (table (_grow_node_if_needed a map k).2).
Proof.
  intros Hwf. unfold _grow_node_if_needed.
  set (b := bucket_index map k). set (node := table map !!! b).
  assert (b < length (table map)) as Hb.
  { destruct Hwf as (? & -> & _). by apply bucket_index_lt. }
  assert (length (items node) = capacity node) as Hnode.
  { apply wf_map_bucket; [done |]. apply bucket_index_lt, Hwf. }
  assert (forall tmp, take (capacity node)
                        (memcpy tmp (items node) (capacity node))
                      = items node) as Hcopy.
  { intros tmp. unfold memcpy. rewrite <- Hnode, firstn_all.
    apply take_app_length. }
  destruct (count node + 1 <? capacity node) eqn:Hroom; nat_tests.
  { by apply grow_room. }
  destruct (0 <? capacity node) eqn:Hpos; nat_tests.
  - assert ((capacity node =? 0) = false) as -> by (apply Nat.eqb_neq; lia).
    destruct (_tmp_capacity map <? capacity node), (realloc_tmp a),
      (alloc_items a);
      cbn [fst snd table set_table set_tmp _tmp]; rewrite ?Hcopy;
      first [by apply grow_failed | by apply grow_double].
  - assert ((capacity node =? 0) = true) as -> by (apply Nat.eqb_eq; lia).
    destruct (alloc_items a); cbn [fst snd table set_table].
    + apply grow_first. fold node. lia.
    + replace (<[b := _]> (table map)) with (table map);
        [by apply grow_failed |].
      symmetry. apply list_insert_id.
      rewrite list_lookup_lookup_total_lt by done. fold node. f_equal.
      destruct node as [its c cap]; simpl in *.
      assert (cap = 0) as -> by lia. by destruct its.
Qed.

Lemma grow_result_cases map b grown t :
  grow_result map b grown t ->
  let node := table map !!! b in
  grown = true /\ count node + 1 < capacity node /\ t = table map \/
  grown = false /\ capacity node <= count node + 1 /\ t = table map \/
  grown = true /\ capacity node = 0 /\
    t = <[b := {| items := replicate HASH_MAP_BUCKET_SIZE unused_item;
                  count := count node;
                  capacity := HASH_MAP_BUCKET_SIZE |}]> (table map) \/
  grown = true /\ 0 < capacity node <= count node + 1 /\
    t = <[b := {| items := foldl (reinsert (capacity node * 2))
                             (replicate (capacity node * 2) unused_item)
                             (items node);
                  count := count node;
                  capacity := capacity node * 2 |}]> (table map).
Proof. destruct 1; auto 10. Qed.

Lemma _grow_node_if_needed_wf a map k :
  wf_map map -> wf_map (_grow_node_if_needed a map k).2.
Proof.
  intros Hwf.
  destruct (_grow_node_if_needed_fields a map k) as (Hcap & _ & _ & Hlen).
  pose proof (_grow_node_if_needed_result a map k Hwf) as Hres.
  destruct Hwf as (Hpos & Htab & Hall).
  split; [lia |]. split; [lia |].
  destruct (grow_result_cases _ _ _ _ Hres)
    as [(_ & _ & ->) | [(_ & _ & ->) | [(_ & _ & ->) | (_ & _ & ->)]]];
    try done; apply Forall_insert; try done; unfold wf_bucket; simpl;
    by rewrite ?length_foldl_reinsert, ?length_replicate.
Qed.
(** ** Lookups, stores and deletions *)

(** Storing a non-null pointer under [k] in the slot that the scan of
    [hashmap_set] selects makes that slot the first match of the scan of
    [hashmap_get]. *)
Lemma _get_item_loop_after_store node k d idx p c :
  wf_bucket node ->
  d <> NULL ->
  _get_item_loop node k true idx 0 (capacity node) = Some p ->
  _get_item_loop
    {| items := <[p := {| key := k; data := d |}]> (items node);
       count := c;
       capacity := capacity node |}
    k false idx 0 (capacity node) = Some p.
Proof.
  intros Hwf Hd. rewrite !_get_item_loop_find. simpl.
  destruct (find_from _ 0 (capacity node)) as [j|] eqn:Hfind; [|discriminate].
  intros [= <-]. apply find_from_Some in Hfind as (Hj & Hhit & Hbefore).
  assert ((idx + j) mod capacity node < length (items node)) as Hp.
  { rewrite Hwf. apply Nat.mod_upper_bound. lia. }
  apply fmap_Some. exists j. split; [|done].
  apply find_from_Some. split; [done |]. split.
  - rewrite list_lookup_total_insert_eq by done.
    unfold hit. apply orb_true_iff. left. by apply occupied_by_true.
  - intros j' Hj'. specialize (Hbefore j' Hj').
    rewrite list_lookup_total_insert_ne.
    + unfold hit in *. apply orb_false_iff in Hbefore as [-> _]. done.
    + intros Heq. rewrite <- Heq in Hbefore. congruence.
Qed.

Lemma _get_item_Some map k empty b p :
  _get_item map k empty = (b, Some p) ->
  b = bucket_index map k /\
  0 < capacity (table map !!! b) /\
  p < capacity (table map !!! b) /\
  _get_item_loop (table map !!! b) k empty
    (slot_index k (capacity (table map !!! b))) 0
    (capacity (table map !!! b)) = Some p.
Proof.
  unfold _get_item. case_match; [intros [= _ ?]; done |].
  intros [= <- Hloop]. nat_tests. repeat split; [lia | | done].
  rewrite _get_item_loop_find in Hloop.
  apply fmap_Some in Hloop as (j & _ & ->).
  apply Nat.mod_upper_bound. lia.
Qed.

(** C1. After [hashmap_set(map, K, D)] has returned true for a data
    reference [D] (a pointer other than NULL, which marks a slot without
    data), the next [hashmap_get(map, K)] returns [D]. *)
Theorem hashmap_get_after_set a map k d map' freed :
  wf_map map ->
  d <> NULL ->
  hashmap_set a map k d = Ok (true, map', freed) ->
  hashmap_get map' k = Ok d.
Proof.
  intros Hwf Hd. unfold hashmap_set.
  destruct (_compute_key map k) as [ukey| |] eqn:Hkey; simpl; try discriminate.
  pose proof (_grow_node_if_needed_wf a map ukey Hwf) as Hwf1.
  pose proof (_grow_node_if_needed_fields a map ukey) as (Hcap & Hhash & _).
  destruct (_grow_node_if_needed a map ukey) as [grown map1]. simpl in *.
  destruct grown; simpl; [|discriminate].
  destruct (_get_item map1 ukey true) as [b [p|]] eqn:Hitem; [|discriminate].
  intros [= <- _].
  apply _get_item_Some in Hitem as (-> & Hpos & Hp & Hloop).
  set (b := bucket_index map1 ukey) in *.
  assert (b < length (table map1)) as Hb.
  { destruct Hwf1 as (? & -> & _). by apply bucket_index_lt. }
  assert (wf_bucket (table map1 !!! b)) as Hnode.
  { destruct Hwf1 as (_ & _ & Hall). by apply Forall_lookup_total_1. }
  unfold hashmap_get.
  rewrite (_compute_key_ext map), Hkey by (simpl; congruence). simpl.
  unfold _get_item. rewrite bucket_index_set_table. fold b. simpl.
  rewrite list_lookup_total_insert_eq by done. simpl.
  destruct (capacity (table map1 !!! b) =? 0) eqn:Hzero; [nat_tests; lia |].
  erewrite _get_item_loop_after_store by done.
  rewrite list_lookup_total_insert_eq by done. simpl.
  rewrite list_lookup_total_insert_eq; [done |].
  unfold wf_bucket in Hnode. lia.
Qed.

(** C9. The scan of [hashmap_get] looks at every slot of the bucket, from
    [skey mod capacity] on and wrapping around, and does not stop at a slot
    without data: when some slot [q] of the bucket is occupied by the key,
    the result is the data of the first such slot of the probe sequence,
    whatever the slots before it hold. *)
Theorem hashmap_get_first_match map k ukey q :
  let node := table map !!! bucket_index map ukey in
  let idx := slot_index ukey (capacity node) in
  _compute_key map k = Ok ukey ->
  q < capacity node ->
  occupied_by ukey (items node !!! q) = true ->
  exists i,
    i < capacity node /\
    occupied_by ukey (items node !!! ((idx + i) mod capacity node)) = true /\
    (forall j, j < i ->
       occupied_by ukey (items node !!! ((idx + j) mod capacity node))
       = false) /\
    hashmap_get map k = Ok (data (items node !!! ((idx + i) mod capacity node))).
Proof.
  intros node idx Hkey Hq Hocc.
  destruct (probe_covers (capacity node) idx q) as (j & Hj & Hprobe);
    [apply slot_index_lt; lia | done |].
  set (f := fun j => hit false ukey (items node !!! ((idx + j) mod capacity node))).
  assert (forall j, f j = occupied_by ukey
                            (items node !!! ((idx + j) mod capacity node)))
    as Hf by (intros; unfold f, hit; apply orb_false_r).
  destruct (find_from_is_Some f 0 (capacity node) j) as [i Hfind];
    [lia | by rewrite Hf, Hprobe |].
  pose proof Hfind as (Hi & Hhit & Hbefore)%find_from_Some.
  exists i. split; [lia |]. rewrite <- !Hf. split; [done |]. split.
  { intros j' Hj'. rewrite <- Hf. apply Hbefore. lia. }
  unfold hashmap_get. rewrite Hkey. simpl. unfold _get_item.
  fold node. destruct (capacity node =? 0) eqn:Hzero; [nat_tests; lia |].
  fold idx. rewrite _get_item_loop_find. fold f. rewrite Hfind. done.
Qed.

Lemma hashmap_delete_loop_lt node k idx i n p :
  0 < capacity node ->
  hashmap_delete_loop node k idx i n = Some p -> p < capacity node.
Proof.
  intros Hcap. revert i. induction (lt_wf n) as [n _ IH]. intros i.
  destruct n as [|n]; simpl; [discriminate |].
  repeat case_match; try discriminate.
  - intros [= <-]. apply Nat.mod_upper_bound. lia.
  - apply IH. lia.
Qed.

(** C10. When [hashmap_delete] returns false, the cell behind the
    out-parameter and the container are what they were before the call. *)
Theorem hashmap_delete_false_frame map k out out' map' :
  hashmap_delete map k out = Ok (false, out', map') ->
  out' = out /\ map' = map.
Proof.
  unfold hashmap_delete.
  destruct (_compute_key map k) as [ukey| |]; simpl; try discriminate.
  repeat case_match; try discriminate. by intros [= <- <-].
Qed.

(** C6. When [hashmap_set] returns false because [_grow_node_if_needed]
    could not allocate, the primary table, hence the destination bucket with
    its capacity, count, keys and data, is what it was before the call,
    [free_item] has not been called, and every lookup gives what it gave
    before. *)
Theorem hashmap_set_alloc_failure a map k d ukey map' freed :
  wf_map map ->
  _compute_key map k = Ok ukey ->
  (_grow_node_if_needed a map ukey).1 = false ->
  hashmap_set a map k d = Ok (false, map', freed) ->
  table map' = table map /\
  table_capacity map' = table_capacity map /\
  freed = [] /\
  forall k', hashmap_get map' k' = hashmap_get map k'.
Proof.
  intros Hwf Hkey Hgrow. unfold hashmap_set. rewrite Hkey. simpl.
  pose proof (_grow_node_if_needed_fields a map ukey) as (Hcap & Hhash & _).
  pose proof (_grow_node_if_needed_result a map ukey Hwf) as Hres.
  destruct (_grow_node_if_needed a map ukey) as [grown map1]. simpl in *.
  subst grown. simpl. intros [= <- <-].
  assert (table map1 = table map) as Htable.
  { by destruct (grow_result_cases _ _ _ _ Hres)
      as [(? & _) | [(_ & _ & ->) | [(? & _) | (? & _)]]]. }
  repeat split; try done.
  intros k'. unfold hashmap_get, _compute_key, _get_item, bucket_index.
  by rewrite Hhash, Hcap, Htable.
Qed.
(** ** The invariant of reachable containers *)

Lemma map_inv_wf map : map_inv map -> wf_map map.
Proof.
  intros (Hpos & Hlen & Hall). repeat split; [done | done |].
  eapply Forall_impl; [done |]. by intros node [? _].
Qed.

Lemma map_inv_bucket map b :
  map_inv map -> b < table_capacity map -> bucket_inv (table map !!! b).
Proof.
  intros (_ & Hlen & Hall) Hb. apply Forall_lookup_total_1; [done | lia].
Qed.

Lemma hashmap_create_inv cap hash free map :
  hashmap_create true cap hash free = Ok (Some map) ->
  map_inv map /\ forall node, node ∈ table map -> capacity node = 0.
Proof.
  unfold hashmap_create. destruct (cap =? 0) eqn:Hcap; [discriminate |].
  nat_tests. intros [= <-]. unfold map_inv; simpl.
  rewrite length_replicate. repeat split; [lia | |].
  - apply Forall_replicate. split; [done |]. split; [done |]. by left.
  - by intros node ->%elem_of_replicate_inv.
Qed.

Lemma reachable_created cap hash free map :
  hashmap_create true cap hash free = Ok (Some map) -> reachable map.
Proof. intros Hcreate. by exists cap, hash, free, map, []. Qed.

(** Growth keeps the invariant and, when it succeeds, leaves room for one
    more slot in the bucket of the key. *)
Lemma _grow_node_if_needed_inv a map k :
  map_inv map ->
  let b := bucket_index map k in
  let grown := (_grow_node_if_needed a map k).1 in
  let map' := (_grow_node_if_needed a map k).2 in
  map_inv map' /\
  (grown = true ->
   count (table map' !!! b) + 1 < capacity (table map' !!! b)).
Proof.
  intros Hinv b grown map'.
  pose proof (_grow_node_if_needed_fields a map k) as (Hcap & _ & _ & Hlen).
  pose proof (_grow_node_if_needed_result a map k (map_inv_wf map Hinv))
    as Hres.
  fold b grown map' in Hcap, Hlen, Hres.
  assert (b < length (table map)) as Hb.
  { destruct Hinv as (? & -> & _). by apply bucket_index_lt. }
  pose proof (map_inv_bucket map b Hinv) as (Hwfb & Hocc & Hshape);
    [by apply bucket_index_lt, Hinv |].
  destruct Hinv as (Hpos & Htab & Hall).
  unfold map_inv. rewrite Hcap, Hlen.
  unfold wf_bucket in Hwfb. subst grown.
  destruct (grow_result_cases _ _ _ _ Hres)
    as [(_ & Hroom & ->) | [(-> & _ & ->) |
        [(_ & Hzero & ->) | (_ & Hfull & ->)]]].
  - done.
  - done.
  - rewrite list_lookup_total_insert_eq by done. simpl.
    assert (count (table map !!! b) = 0) as Hcount by lia.
    split; [|unfold HASH_MAP_BUCKET_SIZE; lia].
    split; [done |]. split; [done |]. apply Forall_insert; [done |].
    split; [done |]. split; [simpl; lia |]. right. simpl.
    split; [unfold HASH_MAP_BUCKET_SIZE; lia |]. by exists 0.
  - rewrite list_lookup_total_insert_eq by done. simpl.
    destruct Hshape as [[? ?] | [Hlt [e He]]]; [lia |].
    split; [|lia].
    split; [done |]. split; [done |]. apply Forall_insert; [done |].
    split; [|split].
    + unfold wf_bucket. simpl.
      by rewrite length_foldl_reinsert, length_replicate.
    + simpl. etransitivity; [apply occupancy_foldl_reinsert |].
      rewrite occupancy_replicate_unused. done.
    + right. simpl. split; [lia |]. exists (S e).
      rewrite He, Nat.pow_succ_r'. lia.
Qed.

(** With fewer occupied slots than slots, the scan of [hashmap_set] finds
    a slot. *)
Lemma _get_item_loop_finds node k idx :
  wf_bucket node ->
  occupancy (items node) < capacity node ->
  idx < capacity node ->
  is_Some (_get_item_loop node k true idx 0 (capacity node)).
Proof.
  intros Hwf Hocc Hidx. unfold wf_bucket in Hwf.
  destruct (occupancy_free_slot (items node)) as (q & Hq & Hfree); [lia |].
  destruct (probe_covers (capacity node) idx q) as (j & Hj & Hprobe);
    [done | lia |].
  rewrite _get_item_loop_find. apply fmap_is_Some.
  apply (find_from_is_Some _ _ _ j); [lia |].
  rewrite Hprobe. unfold hit. apply occupied_false, is_null_true in Hfree.
  rewrite Hfree. apply orb_true_r.
Qed.

(** The effect of [hashmap_set] on the invariant and on capacities. *)
Lemma hashmap_set_inv a map k d r map' freed :
  map_inv map ->
  hashmap_set a map k d = Ok (r, map', freed) ->
  map_inv map' /\
  forall b,
    let c := capacity (table map !!! b) in
    let c' := capacity (table map' !!! b) in
    c' = c \/
    c = 0 /\ c' = HASH_MAP_BUCKET_SIZE /\ r = true \/
    0 < c /\ c' = 2 * c.
Proof.
  intros Hinv. unfold hashmap_set.
  destruct (_compute_key map k) as [ukey| |]; simpl; try discriminate.
  pose proof (_grow_node_if_needed_inv a map ukey Hinv) as (Hinv1 & Hroom).
  pose proof (_grow_node_if_needed_fields a map ukey)
    as (Htc & _ & _ & Hlen).
  pose proof (_grow_node_if_needed_result a map ukey (map_inv_wf map Hinv))
    as Hres.
  destruct (_grow_node_if_needed a map ukey) as [grown map1]. simpl in *.
  set (b := bucket_index map ukey) in *.
  assert (b < length (table map)) as Hb.
  { destruct Hinv as (? & -> & _). by apply bucket_index_lt. }
  assert (bucket_index map1 ukey = b) as Hb1
    by (unfold b, bucket_index; by rewrite Htc).
  assert (forall b',
            capacity (table map1 !!! b') = capacity (table map !!! b') \/
            capacity (table map !!! b') = 0 /\ grown = true /\ b' = b /\
              table map1 !!! b =
                {| items := replicate HASH_MAP_BUCKET_SIZE unused_item;
                   count := count (table map !!! b);
                   capacity := HASH_MAP_BUCKET_SIZE |} \/
            0 < capacity (table map !!! b') /\
              capacity (table map1 !!! b') = 2 * capacity (table map !!! b'))
    as Hstep.
  { intros b'.
    destruct (grow_result_cases _ _ _ _ Hres)
      as [(_ & _ & ->) | [(_ & _ & ->) |
          [(-> & Hzero & ->) | (_ & Hfull & ->)]]];
      [by left | by left | |];
      (destruct (decide (b' = b)) as [-> | Hne];
       [|left; by rewrite list_lookup_total_insert_ne]);
      rewrite list_lookup_total_insert_eq by done; simpl.
    - right. left. done.
    - right. right. lia. }
  destruct grown; simpl.
  - assert (is_Some (_get_item map1 ukey true).2) as [p Hsome].
    { unfold _get_item. rewrite Hb1.
      pose proof (map_inv_bucket map1 b Hinv1) as (Hwfb & Hocc & _).
      { destruct Hinv1 as (_ & <- & _). lia. }
      specialize (Hroom eq_refl).
      destruct (capacity (table map1 !!! b) =? 0) eqn:Hzero; nat_tests;
        [lia |].
      apply _get_item_loop_finds; [done | lia | apply slot_index_lt; lia]. }
    destruct (_get_item map1 ukey true) as [b1 o] eqn:Hitem.
    simpl in Hsome. subst o. intros [= <- <- _].
    apply _get_item_Some in Hitem as (-> & Hpos & Hp & _).
    rewrite Hb1 in *. clear Hb1.
    assert (b < length (table map1)) as Hblt by lia.
    pose proof (map_inv_bucket map1 b Hinv1) as (Hwfb & Hocc & Hshape);
      [destruct Hinv1 as (_ & <- & _); done |].
    unfold wf_bucket in Hwfb. split.
    + destruct Hinv1 as (? & ? & Hall).
      unfold map_inv; simpl. rewrite length_insert.
      repeat split; [done | done |].
      apply Forall_insert; [done |].
      unfold bucket_inv, wf_bucket; simpl.
      rewrite length_insert. split; [done |].
      specialize (Hroom eq_refl).
      pose proof (occupancy_insert (items (table map1 !!! b)) p
                    {| key := ukey; data := d |}) as Hins.
      unfold occupied at 1 in Hins.
      destruct (is_null (data (items (table map1 !!! b) !!! p)));
        simpl in Hins.
      * split; [destruct (occupied _); lia |]. right.
        destruct Hshape as [[? ?] | [_ ?]]; [lia |]. split; [lia | done].
      * split; [destruct (occupied _); lia |]. right.
        destruct Hshape as [[? ?] | [_ ?]]; [lia |]. split; [lia | done].
    + intros b'. simpl. destruct (decide (b' = b)) as [-> | Hne].
      * rewrite list_lookup_total_insert_eq by done. simpl.
        destruct (Hstep b) as [? | [(? & ? & ? & ->) | ?]]; auto.
      * rewrite list_lookup_total_insert_ne by done.
        destruct (Hstep b') as [? | [(? & ? & ? & ?) | ?]]; auto. done.
  - intros [= <- <- _]. split; [done |].
    intros b'. simpl.
    destruct (Hstep b') as [? | [(? & ? & _) | ?]]; auto. done.
Qed.

(** After a successful [hashmap_set] the bucket of the key is allocated. *)
Lemma hashmap_set_true_allocated a map k d ukey map' freed :
  wf_map map ->
  _compute_key map k = Ok ukey ->
  hashmap_set a map k d = Ok (true, map', freed) ->
  0 < capacity (table map' !!! bucket_index map ukey).
Proof.
  intros Hwf Hkey. unfold hashmap_set. rewrite Hkey. simpl.
  pose proof (_grow_node_if_needed_wf a map ukey Hwf) as Hwf1.
  pose proof (_grow_node_if_needed_fields a map ukey) as (Htc & _).
  destruct (_grow_node_if_needed a map ukey) as [[] map1]; [|discriminate].
  simpl in *.
  destruct (_get_item map1 ukey true) as [b [p|]] eqn:Hitem; [|discriminate].
  intros [= <- _]. apply _get_item_Some in Hitem as (-> & Hpos & _).
  assert (bucket_index map1 ukey = bucket_index map ukey) as Hb
    by (unfold bucket_index; by rewrite Htc).
  rewrite Hb in *. simpl. rewrite list_lookup_total_insert_eq; [done |].
  destruct Hwf1 as (? & -> & _). rewrite Htc. apply bucket_index_lt, Hwf.
Qed.

(** In a reachable container [hashmap_set] returns false only when
    [_grow_node_if_needed] does. *)
Lemma hashmap_set_false_inv a map k d ukey map' freed :
  map_inv map ->
  _compute_key map k = Ok ukey ->
  hashmap_set a map k d = Ok (false, map', freed) ->
  (_grow_node_if_needed a map ukey).1 = false.
Proof.
  intros Hinv Hkey. unfold hashmap_set. rewrite Hkey. simpl.
  pose proof (_grow_node_if_needed_inv a map ukey Hinv) as (Hinv1 & Hroom).
  pose proof (_grow_node_if_needed_fields a map ukey)
    as (Htc & _ & _ & Hlen).
  destruct (_grow_node_if_needed a map ukey) as [[] map1]; [|done].
  simpl in *. specialize (Hroom eq_refl).
  set (b := bucket_index map ukey) in *.
  assert (bucket_index map1 ukey = b) as Hb1
    by (unfold b, bucket_index; by rewrite Htc).
  pose proof (map_inv_bucket map1 b Hinv1) as (Hwfb & Hocc & _).
  { rewrite Htc. apply bucket_index_lt, Hinv. }
  unfold _get_item. rewrite Hb1.
  destruct (capacity (table map1 !!! b) =? 0) eqn:Hzero; nat_tests; [lia |].
  destruct (_get_item_loop_finds (table map1 !!! b) ukey
              (slot_index ukey (capacity (table map1 !!! b))))
    as [p ->]; [done | lia | apply slot_index_lt; lia |].
  discriminate.
Qed.

Lemma hashmap_delete_inv map k out r out' map' :
  map_inv map ->
  hashmap_delete map k out = Ok (r, out', map') ->
  map_inv map' /\
  forall b, capacity (table map' !!! b) = capacity (table map !!! b).
Proof.
  intros Hinv. unfold hashmap_delete.
  destruct (_compute_key map k) as [ukey| |]; simpl; try discriminate.
  set (b := bucket_index map ukey). set (node := table map !!! b).
  destruct (capacity node =? 0) eqn:Hzero; [discriminate |]. nat_tests.
  destruct (hashmap_delete_loop _ _ _ _ _) as [p|] eqn:Hloop;
    intros [= <- <- <-]; [|done].
  pose proof (map_inv_bucket map b Hinv) as (Hwfb & Hocc & Hshape);
    [apply bucket_index_lt; by destruct Hinv |].
  fold node in Hwfb, Hocc, Hshape. unfold wf_bucket in Hwfb.
  assert (p < length (items node)) as Hp.
  { rewrite Hwfb. eapply hashmap_delete_loop_lt; [lia | done]. }
  destruct Hinv as (Hpos & Hlen & Hall). split.
  - unfold map_inv; simpl. rewrite length_insert.
    repeat split; [done | done |]. apply Forall_insert; [done |].
    unfold bucket_inv, wf_bucket; simpl. rewrite length_insert.
    split; [done |]. split; [|done].
    pose proof (occupancy_insert (items node) p unused_item Hp) as Hins.
    simpl in Hins. lia.
  - intros b'. simpl. destruct (decide (b' = b)) as [-> | Hne].
    + destruct (decide (b < length (table map))).
      * by rewrite list_lookup_total_insert_eq.
      * by rewrite list_insert_ge by lia.
    + by rewrite list_lookup_total_insert_ne.
Qed.

Lemma apply_op_inv map o map' :
  map_inv map -> apply_op map o = Ok map' -> map_inv map'.
Proof.
  intros Hinv. destruct o as [a k d | k | k out |]; simpl.
  - destruct (hashmap_set a map k d) as [[[r m] fr]| |] eqn:Hset;
      simpl; try discriminate.
    intros [= <-]. by apply hashmap_set_inv in Hset as [? _].
  - destruct (hashmap_get map k); simpl; try discriminate. by intros [= <-].
  - destruct (hashmap_delete map k out) as [[[r o] m]| |] eqn:Hdel;
      simpl; try discriminate.
    intros [= <-]. by apply hashmap_delete_inv in Hdel as [? _].
  - by intros [= <-].
Qed.

Lemma run_inv map ops map' :
  map_inv map -> run map ops = Ok map' -> map_inv map'.
Proof.
  revert map. induction ops as [|o ops IH]; intros map Hinv; simpl.
  - by intros [= <-].
  - destruct (apply_op map o) as [map1| |] eqn:Hop; simpl; try discriminate.
    apply IH. by eapply apply_op_inv.
Qed.

Lemma reachable_inv map : reachable map -> map_inv map.
Proof.
  intros (cap & hash & free & map0 & ops & Hcreate & Hrun).
  eapply run_inv; [|done]. by eapply hashmap_create_inv.
Qed.

(** C5. A new container has no allocated bucket.  In a container reached
    from [hashmap_create] by any sequence of set, get, delete and iterate
    operations, an allocated bucket has [count < capacity], no more than
    [count] of its slots are occupied, and its capacity is the base size 8
    doubled some number of times; an operation changes the capacity of a
    bucket only in [hashmap_set], from 0 to 8 in a call that returns true,
    or from a positive value to its double, and the bucket of the key is
    allocated after a call that returns true. *)
Theorem reachable_bucket_invariant cap hash free map0 ops map :
  hashmap_create true cap hash free = Ok (Some map0) ->
  run map0 ops = Ok map ->
  (forall node, node ∈ table map0 -> capacity node = 0) /\
  (forall node, node ∈ table map ->
     (0 < capacity node -> count node < capacity node) /\
     occupancy (items node) <= count node /\
     (capacity node = 0 \/
      exists e, capacity node = 2 ^ e * HASH_MAP_BUCKET_SIZE)) /\
  (forall a k d r map' freed b,
     hashmap_set a map k d = Ok (r, map', freed) ->
     let c := capacity (table map !!! b) in
     let c' := capacity (table map' !!! b) in
     c' = c \/
     c = 0 /\ c' = HASH_MAP_BUCKET_SIZE /\ r = true \/
     0 < c /\ c' = 2 * c) /\
  (forall a k d ukey map' freed,
     _compute_key map k = Ok ukey ->
     hashmap_set a map k d = Ok (true, map', freed) ->
     0 < capacity (table map' !!! bucket_index map ukey)) /\
  (forall k out r out' map' b,
     hashmap_delete map k out = Ok (r, out', map') ->
     capacity (table map' !!! b) = capacity (table map !!! b)) /\
  (forall o map',
     match o with OpGet _ | OpIterate => True | _ => False end ->
     apply_op map o = Ok map' -> map' = map).
Proof.
  intros Hcreate Hrun.
  assert (map_inv map) as Hinv
    by (apply reachable_inv; by exists cap, hash, free, map0, ops).
  split; [by eapply hashmap_create_inv |].
  split; [|split; [|split; [|split]]].
  - intros node Hnode. destruct Hinv as (_ & _ & Hall).
    rewrite Forall_forall in Hall.
    destruct (Hall node Hnode) as (_ & ? & [[? ?] | [? ?]]);
      repeat split; auto; lia.
  - intros a k d r map' freed b Hset.
    by apply (hashmap_set_inv a map k d r map' freed Hinv Hset).
  - intros a k d ukey map' freed Hkey Hset.
    eapply hashmap_set_true_allocated; [by apply map_inv_wf | done | done].
  - intros k out r out' map' b Hdel.
    by apply (hashmap_delete_inv map k out r out' map' Hinv Hdel).
  - intros [a k d | k | k out |] map' Ho; try done; simpl.
    + destruct (hashmap_get map k); simpl; try discriminate. by intros [= <-].
    + by intros [= <-].
Qed.
(** ** Buckets filled by insertion only *)

Lemma stores_replicate cap : stores cap [] (replicate cap unused_item).
Proof.
  assert (forall p, occupied (replicate cap unused_item !!! p) = false) as Hfree.
  { intros p. destruct (decide (p < cap)).
    - by rewrite lookup_total_replicate_2.
    - rewrite list_lookup_total_alt, (lookup_ge_None_2 _ p); [done |].
      rewrite length_replicate. lia. }
  split; [apply length_replicate |]. split; [|split; [|split]].
  - intros p Hocc. by rewrite Hfree in Hocc.
  - intros p q Hocc. by rewrite Hfree in Hocc.
  - intros p Hocc. by rewrite Hfree in Hocc.
  - by intros it ?%elem_of_nil.
Qed.

(** Writing [k] with [d] into the first free slot of the probe sequence of
    [k] keeps the bucket in shape, provided no occupied slot holds [k]
    already. *)
Lemma stores_insert cap l its k d j :
  stores cap l its ->
  j < cap ->
  data (its !!! probe cap k j) = NULL ->
  (forall j', j' < j -> occupied (its !!! probe cap k j') = true) ->
  (d <> NULL -> forall it, it ∈ l -> occupied it = true -> key it <> k) ->
  stores cap (l ++ [{| key := k; data := d |}])
    (<[probe cap k j := {| key := k; data := d |}]> its).
Proof.
  intros (Hlen & Hchain & Hdist & Hocc_in & Hin_occ) Hj Hfree Hbefore Hfresh.
  set (p := probe cap k j) in *. set (new := {| key := k; data := d |}).
  assert (p < length its) as Hp by (rewrite Hlen; apply probe_lt; lia).
  apply occupied_false in Hfree.
  assert (forall q, q <> p -> <[p := new]> its !!! q = its !!! q) as Hother
    by (intros q Hq; by apply list_lookup_total_insert_ne).
  assert (<[p := new]> its !!! p = new) as Hnew
    by by apply list_lookup_total_insert_eq.
  assert (forall q, occupied (its !!! q) = true -> q <> p) as Hne
    by (intros q Hq ->; congruence).
  assert (forall q, occupied (<[p := new]> its !!! q) = true -> q <> p ->
                    occupied (its !!! q) = true) as Hold
    by (intros q Hq Hqp; by rewrite <- Hother).
  split; [by rewrite length_insert |]. split; [|split; [|split]].
  - intros q Hq. destruct (decide (q = p)) as [-> | Hqp].
    + rewrite Hnew. simpl. exists j. split; [done |]. split; [done |].
      intros j' Hj'. rewrite Hother; auto.
    + rewrite Hother by done.
      destruct (Hchain q (Hold q Hq Hqp)) as (jq & Hjq & Hprobe & Hrun).
      exists jq. split; [done |]. split; [done |].
      intros j' Hj'. rewrite Hother; auto.
  - intros q1 q2 Hq1 Hq2 Hkey.
    assert (occupied new = true -> forall q, q <> p ->
            occupied (its !!! q) = true -> key (its !!! q) <> k) as Hclash.
    { intros Hd%occupied_true q Hqp Hq. apply Hfresh; auto. }
    destruct (decide (q1 = p)) as [-> | Hq1p];
      destruct (decide (q2 = p)) as [-> | Hq2p]; [done | | |].
    + rewrite Hnew in Hq1, Hkey. rewrite Hother in Hq2, Hkey by done.
      exfalso. by apply (Hclash Hq1 q2).
    + rewrite Hnew in Hq2, Hkey. rewrite Hother in Hq1, Hkey by done.
      exfalso. by apply (Hclash Hq2 q1).
    + rewrite !Hother in Hkey by done. apply Hdist; auto.
  - intros q Hq. apply elem_of_app. destruct (decide (q = p)) as [-> | Hqp].
    + right. rewrite Hnew. by apply list_elem_of_singleton.
    + left. rewrite Hother by done. auto.
  - intros it [Hit | ->%list_elem_of_singleton]%elem_of_app Hocc.
    + destruct (Hin_occ it Hit Hocc) as (q & <-).
      exists q. apply Hother. auto.
    + by exists p.
Qed.

(** In such a bucket the scan of [hashmap_get] ends on the data of the
    entry of [l] for the key, which is NULL for an entry without data. *)
Lemma stores_lookup cap l its c it :
  stores cap l its ->
  it ∈ l ->
  (forall it', it' ∈ l -> key it' = key it -> it' = it) ->
  match _get_item_loop {| items := its; count := c; capacity := cap |}
          (key it) false (slot_index (key it) cap) 0 cap with
  | Some p => data (its !!! p)
  | None => NULL
  end = data it.
Proof.
  intros (Hlen & Hchain & Hdist & Hocc_in & Hin_occ) Hit Hfun.
  rewrite _get_item_loop_find. cbn [items capacity].
  set (f := fun j => hit false (key it)
                       (its !!! ((slot_index (key it) cap + j) mod cap))).
  assert (forall j, f j = true ->
            its !!! ((slot_index (key it) cap + j) mod cap) = it) as Hhit.
  { intros j Hfj. unfold f, hit in Hfj. rewrite orb_false_r in Hfj.
    pose proof Hfj as [Hdata Hkey]%occupied_by_true.
    apply Hfun; [|done]. by apply Hocc_in, occupied_true. }
  destruct (find_from f 0 cap) as [j|] eqn:Hfind; simpl.
  - apply find_from_Some in Hfind as (_ & Hfj & _). by rewrite Hhit.
  - destruct (occupied it) eqn:Hocc; [|symmetry; by apply occupied_false].
    exfalso. destruct (Hin_occ it Hit Hocc) as (p & Hp).
    destruct (Hchain p) as (j & Hj & Hprobe & _); [by rewrite Hp |].
    rewrite find_from_None in Hfind. specialize (Hfind j).
    rewrite Hp in Hprobe. unfold f, probe in *.
    rewrite Hprobe, Hp in Hfind. unfold hit, occupied_by in Hfind.
    rewrite Hocc, KEY_EQU_refl in Hfind. by specialize (Hfind ltac:(lia)).
Qed.

(** The slot that the scan of [hashmap_set] selects for a key that no
    occupied slot holds is free, and storing the key there keeps the bucket
    in shape. *)
Lemma stores_set cap l its c k d p :
  stores cap l its ->
  (forall it, it ∈ l -> occupied it = true -> key it <> k) ->
  _get_item_loop {| items := its; count := c; capacity := cap |}
    k true (slot_index k cap) 0 cap = Some p ->
  data (its !!! p) = NULL /\
  stores cap (l ++ [{| key := k; data := d |}])
    (<[p := {| key := k; data := d |}]> its).
Proof.
  intros Hst Hfresh. rewrite _get_item_loop_find. cbn [items capacity].
  intros (j & Hfind & ->)%fmap_Some.
  apply find_from_Some in Hfind as (Hj & Hhit & Hbefore).
  fold (probe cap k j) in *.
  assert (data (its !!! probe cap k j) = NULL) as Hfree.
  { unfold hit in Hhit. apply orb_true_iff in Hhit as [Hocc | Hnull].
    - exfalso. apply occupied_by_true in Hocc as [Hdata Hkey].
      destruct Hst as (_ & _ & _ & Hocc_in & _).
      eapply Hfresh; [apply Hocc_in | |]; by try apply occupied_true.
    - by apply is_null_true. }
  split; [done |]. apply stores_insert; [done | lia | done | | auto].
  intros j' Hj'. specialize (Hbefore j' ltac:(lia)).
  fold (probe cap k j') in Hbefore. unfold hit in Hbefore.
  apply orb_false_iff in Hbefore as [_ Hnull]. simpl in Hnull.
  unfold occupied. by rewrite Hnull.
Qed.

(** The re-insertion loop of [_grow_node_if_needed]: moving the slots
    [todo] of the old array into an array that stores [done] gives an array
    that stores both, as long as the new array is longer than the old one. *)
Lemma stores_foldl_reinsert cap todo :
  forall done arr,
    stores cap done arr ->
    occupancy arr <= length done ->
    distinct_keys (done ++ todo) ->
    length done + length todo < cap ->
    stores cap (done ++ todo) (foldl (reinsert cap) arr todo).
Proof.
  induction todo as [|x todo IH]; intros done arr Hst Hocc Hdist Hlen; simpl.
  - by rewrite app_nil_r.
  - rewrite cons_middle, app_assoc in Hdist |- *.
    simpl in Hlen. apply IH; [| | done | rewrite length_app; simpl; lia].
    + unfold reinsert. rewrite first_free_find.
      set (f := fun j => is_null (data (arr !!! ((slot_index (key x) cap + j)
                                                 mod cap)))).
      pose proof Hst as (Harr & _).
      destruct (occupancy_free_slot arr) as (q & Hq & Hfree); [lia |].
      destruct (probe_covers cap (slot_index (key x) cap) q)
        as (jq & Hjq & Hprobe); [apply slot_index_lt; lia | lia |].
      destruct (find_from_is_Some f 0 cap jq) as [j Hfind]; [lia | |].
      { unfold f. rewrite Hprobe. apply occupied_false in Hfree.
        by apply is_null_true. }
      rewrite Hfind. simpl.
      apply find_from_Some in Hfind as (Hj & Hnull & Hbefore).
      destruct x as [k d]. apply stores_insert; [done | lia | | |].
      * by apply is_null_true.
      * intros j' Hj'. specialize (Hbefore j' ltac:(lia)).
        unfold f in Hbefore. simpl in Hbefore.
        unfold occupied, probe. by rewrite Hbefore.
      * intros Hd it Hit Hit_occ Hkey.
        apply list_elem_of_lookup_total in Hit as (i & Hi & <-).
        assert (i = length done); [|lia].
        apply Hdist.
        -- by rewrite !lookup_total_app_l
             by (rewrite ?length_app; simpl; lia).
        -- rewrite lookup_total_app_l by (rewrite length_app; simpl; lia).
           rewrite lookup_total_app_r, Nat.sub_diag by lia.
           by apply occupied_true.
        -- rewrite !lookup_total_app_l by (rewrite ?length_app; simpl; lia).
           rewrite lookup_total_app_r, Nat.sub_diag by lia. done.
    + rewrite length_app. simpl. pose proof (occupancy_reinsert cap arr x).
      destruct (occupied x); lia.
Qed.

(** Doubling a bucket keeps what it stores. *)
Lemma stores_rehash cap l its ncap :
  stores cap l its ->
  cap < ncap ->
  stores ncap l
    (foldl (reinsert ncap) (replicate ncap unused_item) its).
Proof.
  intros (Hlen & Hchain & Hdist & Hocc_in & Hin_occ) Hcap.
  pose proof (stores_foldl_reinsert ncap its [] (replicate ncap unused_item))
    as (Hlen' & Hchain' & Hdist' & Hocc_in' & Hin_occ').
  { apply stores_replicate. }
  { by rewrite occupancy_replicate_unused. }
  { done. }
  { simpl. lia. }
  simpl in *. set (moved := foldl _ _ _) in *.
  split; [done |]. split; [done |]. split; [done |]. split.
  - intros p Hp.
    destruct (list_elem_of_lookup_total_1 its (moved !!! p)) as (q & _ & Hq);
      [auto |].
    rewrite <- Hq. apply Hocc_in. by rewrite Hq.
  - intros it Hit Hocc. destruct (Hin_occ it Hit Hocc) as (q & <-).
    apply Hin_occ'; [|done].
    apply list_elem_of_lookup_total_2. by apply occupied_lookup_lt.
Qed.
(** ** Runs of insertions into one bucket *)

Section OneBucket.

Variable hash : string -> N.
Variable tc : nat.
Variable b : nat.

Lemma capacity_after_step n :
  capacity_after (S n) =
  if n + 1 <? capacity_after n then capacity_after n
  else if capacity_after n =? 0 then HASH_MAP_BUCKET_SIZE
       else capacity_after n * 2.
Proof. done. Qed.

Lemma capacity_after_pos n : capacity_after (S n) <> 0.
Proof.
  rewrite capacity_after_step. unfold HASH_MAP_BUCKET_SIZE.
  repeat case_match; nat_tests; lia.
Qed.

(** One more call for a key that is not in the bucket yet. *)
Lemma filled_set map done a k d map' freed :
  filled hash tc map b done ->
  hashmap_set a map k d = Ok (true, map', freed) ->
  bucket_index map (split_hash (hash k)) = b ->
  split_hash (hash k) ∉ call_key hash <$> done ->
  filled hash tc map' b (done ++ [(a, k, d)]).
Proof.
  intros (Hwf & Hhash & Htc & Hst & Hcount & Hcap & Hkeys) Hset Hb Hnew.
  revert Hset. unfold hashmap_set.
  destruct (_compute_key map k) as [ukey| |] eqn:Hkey;
    simpl; try discriminate.
  apply _compute_key_Ok in Hkey as [Hk ->]. rewrite Hhash in *.
  set (ukey := split_hash (hash k)) in *.
  pose proof (_grow_node_if_needed_wf a map ukey Hwf) as Hwf1.
  pose proof (_grow_node_if_needed_fields a map ukey)
    as (Htc1 & Hhash1 & _ & Hlen1).
  pose proof (_grow_node_if_needed_result a map ukey Hwf) as Hgrow.
  rewrite Hb in Hgrow. apply grow_result_cases in Hgrow.
  assert (b < length (table map)) as Hblt0.
  { destruct Hwf as (? & -> & _). rewrite <- Hb.
    by apply bucket_index_lt. }
  destruct (_grow_node_if_needed a map ukey) as [grown map1].
  simpl in *. destruct grown; simpl; [|discriminate].
  destruct (_get_item map1 ukey true) as [b1 [p|]] eqn:Hitem;
    [|discriminate].
  intros [= <- _].
  apply _get_item_Some in Hitem as (-> & Hpos & Hp & Hloop).
  assert (bucket_index map1 ukey = b) as Hb1
    by (unfold bucket_index in *; by rewrite Htc1).
  rewrite Hb1 in *.
  assert (b < length (table map1)) as Hblt.
  { destruct Hwf1 as (? & -> & _). rewrite <- Hb1.
    by apply bucket_index_lt. }
  set (node := table map !!! b) in *. set (node1 := table map1 !!! b) in *.
  assert (stores (capacity node1) (entry hash <$> done) (items node1) /\
          count node1 = length done /\
          capacity node1 = capacity_after (S (length done)))
    as (Hst1 & Hcount1 & Hcap1).
  { rewrite capacity_after_step, <- Hcap, <- Hcount.
    unfold node1.
    destruct Hgrow as [(_ & Hroom & ->) | [(? & _) |
                       [(_ & Hzero & ->) | (_ & Hfull & ->)]]];
      [| done | |]; rewrite ?list_lookup_total_insert_eq by done; simpl.
    - apply Nat.ltb_lt in Hroom as ->. done.
    - rewrite Hzero. simpl. split; [|done].
      assert (done = []) as ->.
      { destruct done as [|c done]; [done |]. exfalso.
        apply (capacity_after_pos (length done)). by rewrite <- Hzero. }
      apply stores_replicate.
    - assert ((count node + 1 <? capacity node) = false) as ->
        by (apply Nat.ltb_ge; lia).
      assert ((capacity node =? 0) = false) as ->
        by (apply Nat.eqb_neq; lia).
      split; [|done]. eapply stores_rehash; [done | lia]. }
  destruct (stores_set (capacity node1) (entry hash <$> done) (items node1)
              (count node1) ukey d p) as (Hfree & Hst2).
  { done. }
  { intros it (c & -> & Hc)%list_elem_of_fmap _ Heq. apply Hnew.
    apply list_elem_of_fmap. by exists c. }
  { by destruct node1. }
  split.
  { destruct Hwf1 as (? & ? & Hall). unfold wf_map; simpl.
    rewrite length_insert. repeat split; [done | done |].
    apply Forall_insert; [done |]. unfold wf_bucket; simpl.
    rewrite length_insert. by destruct Hst1 as (? & _). }
  simpl. rewrite list_lookup_total_insert_eq by done. simpl.
  rewrite fmap_app, length_app. simpl.
  apply is_null_true in Hfree. rewrite Hfree.
  split; [congruence |]. split; [congruence |]. split; [done |].
  split; [lia |]. split; [by rewrite Nat.add_1_r |].
  intros c [Hc | ->%list_elem_of_singleton]%elem_of_app; [auto | done].
Qed.

Lemma set_all_filled calls :
  forall map done map',
    filled hash tc map b done ->
    (forall c, c ∈ calls -> bucket_index map (call_key hash c) = b) ->
    NoDup (call_key hash <$> done ++ calls) ->
    set_all map calls = Some map' ->
    filled hash tc map' b (done ++ calls).
Proof.
  induction calls as [|[[a k] d] calls IH];
    intros map done map' Hfilled Hb Hnodup; simpl.
  - intros [= <-]. by rewrite app_nil_r.
  - destruct (hashmap_set a map k d) as [[[[] map1] freed]| |] eqn:Hset;
      try discriminate.
    intros Hrest. rewrite cons_middle, app_assoc in Hnodup |- *.
    assert (filled hash tc map1 b (done ++ [(a, k, d)])) as Hfilled1.
    { eapply filled_set; [done | done | |].
      - apply (Hb (a, k, d)). by left.
      - rewrite !fmap_app in Hnodup.
        apply NoDup_app in Hnodup as (Hnodup & _ & _).
        apply NoDup_app in Hnodup as (_ & Hnotin & _).
        intros Hin. apply (Hnotin _ Hin). by left. }
    apply (IH map1); [done | | done | done].
    intros c Hc. unfold bucket_index.
    destruct Hfilled1 as (_ & _ & -> & _).
    destruct Hfilled as (_ & _ & <- & _). apply Hb. by right.
Qed.

Lemma filled_get map done c :
  filled hash tc map b done ->
  c ∈ done ->
  bucket_index map (call_key hash c) = b ->
  NoDup (call_key hash <$> done) ->
  hashmap_get map c.1.2 = Ok c.2.
Proof.
  intros (Hwf & Hhash & Htc & Hst & Hcount & Hcap & Hkeys) Hc Hb Hnodup.
  unfold hashmap_get, _compute_key. rewrite Hhash.
  destruct (String.length c.1.2 =? 0) eqn:Hlen.
  { exfalso. apply (Hkeys c Hc). nat_tests. by destruct (c.1.2). }
  simpl. fold (call_key hash c). unfold _get_item. rewrite Hb.
  set (node := table map !!! b) in *.
  pose proof (stores_lookup _ _ _ (count node) (entry hash c) Hst)
    as Hlookup.
  replace ({| items := items node; count := count node;
              capacity := capacity node |}) with node in Hlookup
    by (by destruct node).
  simpl in Hlookup. rewrite <- Hlookup.
  - destruct (capacity node =? 0) eqn:Hzero.
    + nat_tests. by rewrite !Hzero.
    + by destruct (_get_item_loop _ _ _ _ _ _).
  - apply list_elem_of_fmap. by exists c.
  - intros it (c' & -> & Hc')%list_elem_of_fmap Hkey. simpl in Hkey.
    apply list_elem_of_lookup in Hc as (i & Hi).
    apply list_elem_of_lookup in Hc' as (i' & Hi').
    assert (i' = i) as ->; [|congruence].
    eapply NoDup_lookup; [done | |];
      rewrite list_lookup_fmap; [by rewrite Hi' | by rewrite Hi, Hkey].
Qed.

End OneBucket.

(** C8. Nine successful [hashmap_set] calls whose keys hash to pairwise
    distinct two-part keys of one primary bucket, which was not allocated
    before, leave that bucket with capacity 16 (the base size 8, doubled
    once), and [hashmap_get] returns for each key the data set for it. *)
Theorem nine_keys_in_one_bucket map calls map' b :
  reachable map ->
  capacity (table map !!! b) = 0 ->
  length calls = 9 ->
  (forall c, c ∈ calls ->
     bucket_index map (call_key (hash_function map) c) = b) ->
  NoDup (call_key (hash_function map) <$> calls) ->
  set_all map calls = Some map' ->
  capacity (table map' !!! b) = 16 /\
  forall c, c ∈ calls -> hashmap_get map' c.1.2 = Ok c.2.
Proof.
  intros Hinv%reachable_inv Hzero Hlen Hb Hnodup Hset.
  assert (b < table_capacity map) as Hblt.
  { destruct calls as [|c calls]; [discriminate |].
    rewrite <- (Hb c) by by left. apply bucket_index_lt, Hinv. }
  assert (filled (hash_function map) (table_capacity map) map b []) as Hfilled.
  { pose proof (map_inv_bucket map b Hinv Hblt) as (Hwfb & Hshape).
    unfold wf_bucket in Hwfb. rewrite Hzero in Hwfb.
    apply length_zero_iff_nil in Hwfb.
    split; [by apply map_inv_wf |]. split; [done |]. split; [done |].
    rewrite Hwfb, Hzero. split; [apply (stores_replicate 0) |].
    split; [simpl; lia |]. split; [done |]. by intros c ?%elem_of_nil. }
  pose proof (set_all_filled _ _ b calls map [] map' Hfilled Hb Hnodup Hset)
    as Hfilled'.
  simpl in Hfilled'. split.
  - destruct Hfilled' as (_ & _ & _ & _ & _ & -> & _). by rewrite Hlen.
  - intros c Hc. eapply filled_get; [done | done | | done].
    unfold bucket_index. destruct Hfilled' as (_ & _ & -> & _).
    by apply Hb.
Qed.

Lemma nine_keys_in_one_bucket_witness :
  exists map',
    set_all one_bucket nine_calls = Some map' /\
    capacity (table map' !!! 0) = 16 /\
    forall c, c ∈ nine_calls -> hashmap_get map' c.1.2 = Ok c.2.
Proof.
  destruct (set_all one_bucket nine_calls) as [map'|] eqn:Hset;
    [|vm_compute in Hset; discriminate].
  exists map'. split; [reflexivity |].
  apply (nine_keys_in_one_bucket one_bucket nine_calls map' 0).
  - exact (reachable_created 1 collision_hash true one_bucket
             one_bucket_created).
  - reflexivity.
  - reflexivity.
  - intros c Hc. unfold bucket_index. simpl. by rewrite N.mod_1_r.
  - refine (bool_decide_unpack _ _). vm_compute. exact I.
  - exact Hset.
Defined.
(** ** Defects of [hashmap_delete] and of overwriting *)

Lemma hashmap_delete_loop_occupied node k idx i n p :
  hashmap_delete_loop node k idx i n = Some p ->
  occupied_by k (items node !!! p) = true.
Proof.
  revert i. induction (lt_wf n) as [n _ IH]. intros i.
  destruct n as [|n]; simpl; [discriminate |].
  destruct (is_null _) eqn:Hnull; [discriminate |].
  destruct (KEY_EQU _ _) eqn:Hkey.
  - intros [= <-]. unfold occupied_by, occupied. by rewrite Hnull, Hkey.
  - apply IH. lia.
Qed.

(** C2 is a defect of the code: a successful [hashmap_delete] resets the
    matched slot and hands the former data to the out-parameter, and the
    bucket's [count] in the container is what it was before the call: the
    decrement is applied to the by-value copy [node]. *)
Theorem hashmap_delete_true_keeps_count map k ukey out out' map' :
  wf_map map ->
  _compute_key map k = Ok ukey ->
  hashmap_delete map k out = Ok (true, out', map') ->
  exists p,
    p < capacity (table map !!! bucket_index map ukey) /\
    occupied_by ukey (items (table map !!! bucket_index map ukey) !!! p)
      = true /\
    items (table map' !!! bucket_index map ukey) !!! p = unused_item /\
    (forall v, out = Some v ->
       out' = Some (data (items (table map !!! bucket_index map ukey) !!! p)))
    /\
    count (table map' !!! bucket_index map ukey)
      = count (table map !!! bucket_index map ukey).
Proof.
  intros Hwf Hkey. unfold hashmap_delete. rewrite Hkey. simpl.
  set (b := bucket_index map ukey). set (node := table map !!! b).
  destruct (capacity node =? 0) eqn:Hzero; [discriminate |]. nat_tests.
  destruct (hashmap_delete_loop _ _ _ _ _) as [p|] eqn:Hloop;
    [|discriminate].
  intros [= <- <-]. exists p.
  assert (p < capacity node) as Hp
    by (eapply hashmap_delete_loop_lt; [lia | done]).
  assert (b < length (table map)) as Hb.
  { destruct Hwf as (? & -> & _). by apply bucket_index_lt. }
  assert (wf_bucket node) as Hnode.
  { apply wf_map_bucket; [done |]. apply bucket_index_lt, Hwf. }
  split; [done |]. split; [by eapply hashmap_delete_loop_occupied |].
  simpl. rewrite list_lookup_total_insert_eq by done. simpl.
  rewrite list_lookup_total_insert_eq by (unfold wf_bucket in Hnode; lia).
  split; [done |]. split; [|done]. by intros v ->.
Qed.

Lemma hashmap_delete_true_keeps_count_witness :
  let map := exec one_bucket [OpSet all_ok "af"%string 7%N] in
  let map' := exec map [OpDelete "af"%string (Some NULL)] in
  hashmap_delete map "af"%string (Some NULL) = Ok (true, Some 7%N, map') /\
  count (table map !!! 0) = 1 /\
  count (table map' !!! 0) = 1.
Proof.
  intros map map'.
  assert (hashmap_delete map "af"%string (Some NULL)
          = Ok (true, Some 7%N, map')) as Hdel by (vm_compute; reflexivity).
  split; [exact Hdel |]. split; [vm_compute; reflexivity |].
  destruct (hashmap_delete_true_keeps_count
              map "af"%string {| pkey := 97; skey := 102 |}
              (Some NULL) (Some 7%N) map') as (p & _ & _ & _ & _ & Hcount);
    [apply wf_mapb_true; vm_compute; reflexivity
    | vm_compute; reflexivity
    | exact Hdel
    |].
  etransitivity; [exact Hcount | vm_compute; reflexivity].
Defined.

(** The deletion scan looks at every second slot of the probe sequence. *)
Lemma hashmap_delete_loop_offset node k idx i n p :
  hashmap_delete_loop node k idx i n = Some p ->
  exists j, 2 * j < n /\ p = (idx + (i + 2 * j)) mod capacity node.
Proof.
  revert i. induction (lt_wf n) as [n _ IH]. intros i.
  destruct n as [|n]; simpl; [discriminate |].
  repeat case_match; try discriminate.
  - intros [= <-]. exists 0. split; [lia |]. by rewrite Nat.add_0_r.
  - intros (j & Hj & ->)%IH; [|lia]. exists (S j). split; [lia |].
    f_equal. lia.
Qed.

(** C3 is a defect of the code: the loop of [hashmap_delete] increments
    [i] twice per round, so it looks at the even offsets of the probe
    sequence only, and a key that is stored at no even offset is not found,
    wherever else it is stored and whatever the slots before it hold. *)
Theorem hashmap_delete_even_offsets_only map k ukey out :
  let node := table map !!! bucket_index map ukey in
  let idx := slot_index ukey (capacity node) in
  _compute_key map k = Ok ukey ->
  0 < capacity node ->
  (forall j, 2 * j < capacity node ->
     occupied_by ukey (items node !!! ((idx + 2 * j) mod capacity node))
     = false) ->
  hashmap_delete map k out = Ok (false, out, map).
Proof.
  intros node idx Hkey Hcap Heven. unfold hashmap_delete.
  rewrite Hkey. simpl. fold node.
  destruct (capacity node =? 0) eqn:Hzero; nat_tests; [lia |]. fold idx.
  destruct (hashmap_delete_loop node ukey idx 0 (capacity node))
    as [p|] eqn:Hloop; [|done].
  pose proof (hashmap_delete_loop_occupied _ _ _ _ _ _ Hloop) as Hocc.
  apply hashmap_delete_loop_offset in Hloop as (j & Hj & ->).
  rewrite Nat.add_0_l, Heven in Hocc by done. discriminate.
Qed.

(** The key ["an"] is stored at offset 1 of its probe sequence, right
    behind the occupied slot of ["af"]: [hashmap_get] finds it there and
    [hashmap_delete] returns false. *)
Lemma hashmap_delete_even_offsets_only_witness :
  let map := exec one_bucket [OpSet all_ok "af"%string 1%N;
                              OpSet all_ok "an"%string 2%N] in
  let ukey := {| pkey := 97; skey := 110 |} in
  let node := table map !!! bucket_index map ukey in
  _compute_key map "an"%string = Ok ukey /\
  capacity node = 8 /\
  slot_index ukey (capacity node) = 6 /\
  occupied (items node !!! 6) = true /\
  items node !!! 7 = {| key := ukey; data := 2%N |} /\
  hashmap_get map "an"%string = Ok 2%N /\
  hashmap_delete map "an"%string (Some NULL) = Ok (false, Some NULL, map).
Proof.
  intros map ukey node.
  assert (_compute_key map "an"%string = Ok ukey) as Hkey
    by (vm_compute; reflexivity).
  split; [exact Hkey |].
  split; [vm_compute; reflexivity |]. split; [vm_compute; reflexivity |].
  split; [vm_compute; reflexivity |]. split; [vm_compute; reflexivity |].
  split; [vm_compute; reflexivity |].
  apply (hashmap_delete_even_offsets_only map "an"%string ukey (Some NULL)).
  - exact Hkey.
  - vm_compute. lia.
  - intros j Hj. change (capacity (table map !!! bucket_index map ukey))
      with 8 in *.
    do 4 (destruct j as [|j]; [vm_compute; reflexivity |]). lia.
Defined.

(** C4 is a defect of the code for a bucket that was never allocated:
    [hashmap_get] returns NULL there, but [hashmap_delete] computes
    [skey % 0] before it looks at any slot. *)
Theorem hashmap_delete_unallocated_bucket map k ukey out :
  _compute_key map k = Ok ukey ->
  capacity (table map !!! bucket_index map ukey) = 0 ->
  hashmap_get map k = Ok NULL /\
  hashmap_delete map k out = DivisionByZero.
Proof.
  intros Hkey Hcap. unfold hashmap_get, hashmap_delete, _get_item.
  rewrite Hkey. simpl. by rewrite Hcap.
Qed.

Lemma hashmap_delete_unallocated_bucket_witness :
  _compute_key one_bucket "af"%string = Ok {| pkey := 97; skey := 102 |} /\
  capacity (table one_bucket !!! 0) = 0 /\
  hashmap_get one_bucket "af"%string = Ok NULL /\
  hashmap_delete one_bucket "af"%string None = DivisionByZero.
Proof.
  split; [reflexivity |]. split; [reflexivity |].
  apply (hashmap_delete_unallocated_bucket
           one_bucket "af"%string {| pkey := 97; skey := 102 |} None);
    reflexivity.
Defined.

(** C7 is a defect of the code.  ["af"], ["an"] and ["av"] start their
    probes at slot 6; after ["af"] is deleted, [hashmap_set] stores 11 for
    ["av"] in the slot that became free and leaves the older slot of
    ["av"], which holds 10, in place.  The next [hashmap_set] of ["av"]
    doubles the bucket, finds the older slot first, hands 10 to [free_item]
    and stores 12 there: 11 is never handed to [free_item] and stays in the
    bucket, where [hashmap_iterate] visits it. *)
Theorem hashmap_set_overwrite_frees_stale_value :
  let map := exec one_bucket [OpSet all_ok "af"%string 1%N;
                              OpSet all_ok "an"%string 2%N;
                              OpSet all_ok "av"%string 10%N;
                              OpSet all_ok "ab"%string 3%N;
                              OpSet all_ok "ac"%string 4%N;
                              OpSet all_ok "ad"%string 5%N;
                              OpDelete "af"%string None] in
  let map1 := exec map [OpSet all_ok "av"%string 11%N] in
  let map2 := exec map1 [OpSet all_ok "av"%string 12%N] in
  hashmap_set all_ok map "av"%string 11%N = Ok (true, map1, []) /\
  hashmap_get map1 "av"%string = Ok 11%N /\
  hashmap_set all_ok map1 "av"%string 12%N = Ok (true, map2, [10%N]) /\
  hashmap_get map2 "av"%string = Ok 12%N /\
  hashmap_iterate map2 =
    [({| pkey := 97; skey := 98 |}, 3%N);
     ({| pkey := 97; skey := 99 |}, 4%N);
     ({| pkey := 97; skey := 100 |}, 5%N);
     ({| pkey := 97; skey := 118 |}, 12%N);
     ({| pkey := 97; skey := 118 |}, 11%N);
     ({| pkey := 97; skey := 110 |}, 2%N)].
Proof. intros. split_and!; vm_compute; reflexivity. Qed.

(** Storing NULL is outside C1: NULL is the mark of a slot without data and
    the value [hashmap_get] returns for a key it does not find.  Here
    [hashmap_set] writes the key ["av"] with NULL into the free slot 6, and
    [hashmap_get] goes past it to the older slot of ["av"]. *)
Lemma hashmap_get_after_set_NULL :
  let map := exec one_bucket [OpSet all_ok "af"%string 1%N;
                              OpSet all_ok "an"%string 2%N;
                              OpSet all_ok "av"%string 10%N;
                              OpDelete "af"%string None] in
  let map' := exec map [OpSet all_ok "av"%string NULL] in
  hashmap_set all_ok map "av"%string NULL = Ok (true, map', []) /\
  hashmap_get map' "av"%string = Ok 10%N.
Proof. intros. split_and!; vm_compute; reflexivity. Qed.

Lemma hashmap_get_after_set_witness :
  let map' := exec one_bucket [OpSet all_ok "af"%string 7%N] in
  wf_map one_bucket /\
  7%N <> NULL /\
  hashmap_set all_ok one_bucket "af"%string 7%N = Ok (true, map', []) /\
  hashmap_get map' "af"%string = Ok 7%N.
Proof.
  intros map'.
  pose proof (hashmap_create_wf 1 collision_hash true one_bucket
                one_bucket_created) as Hwf.
  assert (7%N <> NULL) as Hd by discriminate.
  assert (hashmap_set all_ok one_bucket "af"%string 7%N
          = Ok (true, map', [])) as Hset by (vm_compute; reflexivity).
  split; [exact Hwf |]. split; [exact Hd |]. split; [exact Hset |].
  exact (hashmap_get_after_set all_ok one_bucket "af"%string 7%N map' []
           Hwf Hd Hset).
Defined.

(** A free slot (left by the deletion of ["af"]) comes first in the probe
    sequence of ["av"]. *)
Lemma hashmap_get_first_match_witness :
  let map := exec one_bucket [OpSet all_ok "af"%string 1%N;
                              OpSet all_ok "an"%string 2%N;
                              OpSet all_ok "av"%string 10%N;
                              OpDelete "af"%string None] in
  let ukey := {| pkey := 97; skey := 118 |} in
  let node := table map !!! bucket_index map ukey in
  occupied (items node !!! slot_index ukey (capacity node)) = false /\
  _compute_key map "av"%string = Ok ukey /\
  0 < capacity node /\
  occupied_by ukey (items node !!! 0) = true /\
  exists i,
    i < capacity node /\
    occupied_by ukey
      (items node !!! ((slot_index ukey (capacity node) + i)
                       mod capacity node)) = true /\
    (forall j, j < i ->
       occupied_by ukey
         (items node !!! ((slot_index ukey (capacity node) + j)
                          mod capacity node)) = false) /\
    hashmap_get map "av"%string =
      Ok (data (items node !!! ((slot_index ukey (capacity node) + i)
                                mod capacity node))).
Proof.
  intros map ukey node.
  assert (_compute_key map "av"%string = Ok ukey) as Hkey
    by (vm_compute; reflexivity).
  assert (0 < capacity node) as Hq by (vm_compute; lia).
  assert (occupied_by ukey (items node !!! 0) = true) as Hocc
    by (vm_compute; reflexivity).
  split; [vm_compute; reflexivity |]. repeat split; try assumption.
  exact (hashmap_get_first_match map "av"%string ukey 0 Hkey Hq Hocc).
Defined.

Lemma hashmap_delete_false_frame_witness :
  let map := exec one_bucket [OpSet all_ok "af"%string 1%N] in
  hashmap_delete map "ab"%string (Some 5%N) = Ok (false, Some 5%N, map) /\
  Some 5%N = Some 5%N /\ map = map.
Proof.
  intros map.
  assert (hashmap_delete map "ab"%string (Some 5%N)
          = Ok (false, Some 5%N, map)) as Hdel by (vm_compute; reflexivity).
  split; [exact Hdel |].
  exact (hashmap_delete_false_frame map "ab"%string (Some 5%N) (Some 5%N)
           map Hdel).
Defined.

(** The bucket is full (7 of 8 slots counted) and the allocator refuses
    the slot array of 16. *)
Lemma hashmap_set_alloc_failure_witness :
  let map := exec one_bucket [OpSet all_ok "aa"%string 1%N;
                              OpSet all_ok "ab"%string 2%N;
                              OpSet all_ok "ac"%string 3%N;
                              OpSet all_ok "ad"%string 4%N;
                              OpSet all_ok "ae"%string 5%N;
                              OpSet all_ok "af"%string 6%N;
                              OpSet all_ok "ag"%string 7%N] in
  let ukey := {| pkey := 97; skey := 104 |} in
  exists map',
    hashmap_set no_memory map "ah"%string 8%N = Ok (false, map', []) /\
    table map' = table map /\
    table_capacity map' = table_capacity map /\
    [] = @nil ptr /\
    forall k', hashmap_get map' k' = hashmap_get map k'.
Proof.
  intros map ukey.
  destruct (hashmap_set no_memory map "ah"%string 8%N)
    as [[[r map'] freed]| |] eqn:Hset;
    [|vm_compute in Hset; discriminate..].
  assert (r = false /\ freed = []) as [-> ->].
  { vm_compute in Hset. by injection Hset as <- _ <-. }
  exists map'. split; [reflexivity |].
  apply (hashmap_set_alloc_failure no_memory map "ah"%string 8%N ukey map' []).
  - apply wf_mapb_true. vm_compute. reflexivity.
  - vm_compute. reflexivity.
  - vm_compute. reflexivity.
  - exact Hset.
Defined.

Lemma reachable_bucket_invariant_witness :
  let ops := [OpSet all_ok "af"%string 1%N; OpSet all_ok "an"%string 2%N;
              OpGet "af"%string; OpDelete "af"%string None; OpIterate] in
  let map := exec one_bucket ops in
  run one_bucket ops = Ok map /\
  forall node, node ∈ table map ->
    (0 < capacity node -> count node < capacity node) /\
    occupancy (items node) <= count node /\
    (capacity node = 0 \/
     exists e, capacity node = 2 ^ e * HASH_MAP_BUCKET_SIZE).
Proof.
  intros ops map.
  assert (run one_bucket ops = Ok map) as Hrun by (vm_compute; reflexivity).
  split; [exact Hrun |].
  exact (proj1 (proj2 (reachable_bucket_invariant
                         1 collision_hash true one_bucket ops map
                         one_bucket_created Hrun))).
Defined.
(** * Further properties *)

(** ** Key derivation *)

Lemma mask32_ones : 0xFFFFFFFF%N = N.ones 32.
Proof. reflexivity. Qed.

Lemma split_hash_mod h :
  pkey (split_hash h) = (h mod 2 ^ 32)%N /\
  skey (split_hash h) = ((h / 2 ^ 32) mod 2 ^ 32)%N.
Proof.
  unfold split_hash. simpl. rewrite mask32_ones, !N.land_ones.
  by rewrite N.shiftr_div_pow2.
Qed.

Lemma testbit_below_pow2 p n m :
  (p < 2 ^ m)%N -> (m <= n)%N -> N.testbit p n = false.
Proof.
  intros Hp Hn. rewrite <- (N.mod_small p (2 ^ m)) by done.
  by apply N.mod_pow2_bits_high.
Qed.

Lemma lor_shiftl_add p s :
  (p < 2 ^ 32)%N -> N.lor p (N.shiftl s 32) = (p + s * 2 ^ 32)%N.
Proof.
  intros Hp. rewrite <- N.shiftl_mul_pow2.
  assert (N.land p (N.shiftl s 32) = 0%N) as Hdisjoint.
  { apply N.bits_inj. intros n. rewrite N.land_spec, N.bits_0.
    destruct (N.lt_ge_cases n 32) as [Hn | Hn].
    - by rewrite N.shiftl_spec_low, andb_false_r.
    - by rewrite (testbit_below_pow2 p n 32). }
  by rewrite <- N.lxor_lor, N.add_nocarry_lxor.
Qed.

Lemma split_hash_congr h1 h2 :
  (h1 mod 2 ^ 64 = h2 mod 2 ^ 64)%N -> split_hash h1 = split_hash h2.
Proof.
  intros Heq.
  destruct (split_hash_mod h1) as [Hp1 Hs1].
  destruct (split_hash_mod h2) as [Hp2 Hs2].
  assert (forall h, (h mod 2 ^ 32 = (h mod 2 ^ 64) mod 2 ^ 32)%N) as Hlow.
  { intros h. change (2 ^ 64)%N with (2 ^ 32 * 2 ^ 32)%N.
    rewrite N.Div0.mod_mul_r.
    rewrite (N.mul_comm (2 ^ 32) ((h / 2 ^ 32) mod 2 ^ 32)).
    by rewrite N.Div0.mod_add, N.Div0.mod_mod. }
  assert (forall h, ((h / 2 ^ 32) mod 2 ^ 32
                     = (h mod 2 ^ 64) / 2 ^ 32)%N) as Hhigh.
  { intros h. change (2 ^ 64)%N with (2 ^ 32 * 2 ^ 32)%N.
    rewrite N.Div0.mod_mul_r.
    rewrite (N.mul_comm (2 ^ 32) ((h / 2 ^ 32) mod 2 ^ 32)).
    rewrite N.div_add by lia.
    by rewrite (N.div_small (h mod 2 ^ 32))
      by (apply N.mod_upper_bound; lia). }
  destruct (split_hash h1) as [p1 s1], (split_hash h2) as [p2 s2].
  simpl in *. subst.
  f_equal; [by rewrite (Hlow h1), (Hlow h2), Heq
           | by rewrite (Hhigh h1), (Hhigh h2), Heq].
Qed.

(** X1. The two-part key is the hash modulo [2^64], cut in two: both halves
    are below [2^32], joining them gives the hash modulo [2^64] back, and two
    hash values give the same key exactly when they agree modulo [2^64]. *)
Theorem split_hash_round_trip h1 h2 :
  (pkey (split_hash h1) < 2 ^ 32)%N /\
  (skey (split_hash h1) < 2 ^ 32)%N /\
  N.lor (pkey (split_hash h1)) (N.shiftl (skey (split_hash h1)) 32)
    = (h1 mod 2 ^ 64)%N /\
  (split_hash h1 = split_hash h2 <-> (h1 mod 2 ^ 64 = h2 mod 2 ^ 64)%N).
Proof.
  assert (forall h,
            N.lor (pkey (split_hash h)) (N.shiftl (skey (split_hash h)) 32)
            = (h mod 2 ^ 64)%N) as Hjoin.
  { intros h. destruct (split_hash_mod h) as [-> ->].
    rewrite lor_shiftl_add by (apply N.mod_upper_bound; lia).
    change (2 ^ 64)%N with (2 ^ 32 * 2 ^ 32)%N.
    rewrite N.Div0.mod_mul_r. lia. }
  destruct (split_hash_mod h1) as [Hp Hs].
  split; [rewrite Hp; apply N.mod_upper_bound; lia |].
  split; [rewrite Hs; apply N.mod_upper_bound; lia |].
  split; [apply Hjoin |]. split.
  - intros Heq. by rewrite <- !Hjoin, Heq.
  - apply split_hash_congr.
Qed.

(** ** Calls that stop, calls that return *)



(** ** Lookups *)

Lemma hashmap_get_miss map k ukey :
  let node := table map !!! bucket_index map ukey in
  _compute_key map k = Ok ukey ->
  (forall q, q < capacity node ->
     occupied_by ukey (items node !!! q) = false) ->
  hashmap_get map k = Ok NULL.
Proof.
  intros node Hkey Hnone. unfold hashmap_get. rewrite Hkey. simpl.
  unfold _get_item. fold node.
  destruct (capacity node =? 0) eqn:Hzero; nat_tests; [done |].
  rewrite _get_item_loop_find.
  destruct (find_from _ 0 (capacity node)) as [j|] eqn:Hfind; [|done].
  apply find_from_Some in Hfind as (_ & Hhit & _).
  unfold hit in Hhit. rewrite orb_false_r, Hnone in Hhit; [done |].
  apply Nat.mod_upper_bound. lia.
Qed.

Lemma hashmap_get_hit map k ukey q :
  let node := table map !!! bucket_index map ukey in
  _compute_key map k = Ok ukey ->
  q < capacity node ->
  occupied_by ukey (items node !!! q) = true ->
  exists q',
    q' < capacity node /\
    occupied_by ukey (items node !!! q') = true /\
    hashmap_get map k = Ok (data (items node !!! q')).
Proof.
  intros node Hkey Hq Hocc. unfold hashmap_get. rewrite Hkey. simpl.
  unfold _get_item. fold node.
  destruct (capacity node =? 0) eqn:Hzero; nat_tests; [lia |].
  set (idx := slot_index ukey (capacity node)).
  destruct (probe_covers (capacity node) idx q) as (j & Hj & Hprobe);
    [apply slot_index_lt; lia | done |].
  rewrite _get_item_loop_find.
  set (f := fun j => hit false ukey
                       (items node !!! ((idx + j) mod capacity node))).
  destruct (find_from_is_Some f 0 (capacity node) j) as [i Hfind]; [lia | |].
  { unfold f, hit. by rewrite Hprobe, Hocc. }
  rewrite Hfind. simpl. apply find_from_Some in Hfind as (Hi & Hhit & _).
  exists ((idx + i) mod capacity node).
  split; [apply Nat.mod_upper_bound; lia |]. split; [|done].
  unfold f, hit in Hhit. by rewrite orb_false_r in Hhit.
Qed.

Lemma hashmap_get_stored map k ukey d :
  let node := table map !!! bucket_index map ukey in
  _compute_key map k = Ok ukey ->
  hashmap_get map k = Ok d ->
  d <> NULL ->
  exists q, q < capacity node /\
    items node !!! q = {| key := ukey; data := d |}.
Proof.
  intros node Hkey. unfold hashmap_get. rewrite Hkey. simpl.
  unfold _get_item. fold node.
  destruct (capacity node =? 0) eqn:Hzero; nat_tests;
    [intros [= <-]; done |].
  rewrite _get_item_loop_find.
  destruct (find_from _ 0 (capacity node)) as [j|] eqn:Hfind; simpl;
    [|intros [= <-]; done].
  apply find_from_Some in Hfind as (_ & Hhit & _).
  set (q := (slot_index ukey (capacity node) + j) mod capacity node) in *.
  unfold hit in Hhit. rewrite orb_false_r in Hhit.
  apply occupied_by_true in Hhit as [_ Hk].
  intros [= <-] _. exists q. split; [apply Nat.mod_upper_bound; lia |].
  destruct (items node !!! q) as [k' d']. simpl in *. by subst.
Qed.

(** X3. [hashmap_get] returns NULL exactly when no slot of the bucket of the
    key is occupied by the key; what it returns otherwise is the data of a
    slot that is occupied by the key. *)
Theorem hashmap_get_NULL_iff map k ukey :
  let node := table map !!! bucket_index map ukey in
  wf_map map ->
  _compute_key map k = Ok ukey ->
  (hashmap_get map k = Ok NULL <->
   forall q, q < capacity node ->
     occupied_by ukey (items node !!! q) = false) /\
  (forall d, hashmap_get map k = Ok d -> d <> NULL ->
     exists q, q < capacity node /\
       items node !!! q = {| key := ukey; data := d |}).
Proof.
  intros node _ Hkey. split; [split |].
  - intros Hnull q Hq.
    destruct (occupied_by ukey (items node !!! q)) eqn:Hocc; [|done].
    destruct (hashmap_get_hit map k ukey q Hkey Hq Hocc)
      as (q' & _ & [Hdata _]%occupied_by_true & Hget).
    rewrite Hget in Hnull. injection Hnull as Hnull. destruct (Hdata Hnull).
  - by apply hashmap_get_miss.
  - intros d Hget Hd. by apply (hashmap_get_stored map k ukey d).
Qed.

Lemma hashmap_get_NULL_iff_witness :
  let map := exec one_bucket [OpSet all_ok "af"%string 1%N] in
  let ukey := {| pkey := 97; skey := 110 |} in
  _compute_key map "an"%string = Ok ukey /\
  hashmap_get map "an"%string = Ok NULL.
Proof.
  intros map ukey.
  assert (_compute_key map "an"%string = Ok ukey) as Hkey
    by (vm_compute; reflexivity).
  split; [exact Hkey |].
  assert (wf_map map) as Hwf
    by (apply wf_mapb_true; vm_compute; reflexivity).
  apply (proj1 (hashmap_get_NULL_iff map "an"%string ukey Hwf Hkey)).
  intros q Hq. change (capacity (table map !!! bucket_index map ukey))
    with 8 in Hq.
  do 8 (destruct q as [|q]; [vm_compute; reflexivity |]). lia.
Defined.

(** ** What an operation leaves alone *)

Lemma find_from_ext f g i n :
  (forall j, i <= j < i + n -> f j = g j) ->
  find_from f i n = find_from g i n.
Proof.
  revert i. induction n as [|n IH]; intros i Hext; simpl; [done |].
  rewrite (Hext i) by lia. destruct (g i); [done |].
  apply IH. intros j Hj. apply Hext. lia.
Qed.

(** [hashmap_get] reads the callbacks, the size of the primary table and
    one bucket. *)
Lemma hashmap_get_ext map map' k ukey :
  _compute_key map k = Ok ukey ->
  hash_function map' = hash_function map ->
  table_capacity map' = table_capacity map ->
  table map' !!! bucket_index map ukey = table map !!! bucket_index map ukey ->
  hashmap_get map' k = hashmap_get map k.
Proof.
  intros Hkey Hhash Htc Hbucket. unfold hashmap_get.
  rewrite (_compute_key_ext map map') by done. rewrite Hkey. simpl.
  unfold _get_item.
  assert (bucket_index map' ukey = bucket_index map ukey) as ->
    by (unfold bucket_index; by rewrite Htc).
  rewrite Hbucket. destruct (capacity _ =? 0); [done |].
  destruct (_get_item_loop _ _ _ _ _ _); [|done]. by rewrite Hbucket.
Qed.




(** X5. [hashmap_delete] of one key changes the result of [hashmap_get] for no
    key with another two-part key, in the same bucket or elsewhere: the lookup
    scans the whole bucket, so the slot that the deletion clears is not missed
    by any probe sequence. *)
Theorem hashmap_delete_other_keys map k ukey out r out' map' :
  wf_map map ->
  _compute_key map k = Ok ukey ->
  hashmap_delete map k out = Ok (r, out', map') ->
  forall k' ukey',
    _compute_key map k' = Ok ukey' ->
    ukey' <> ukey ->
    hashmap_get map' k' = hashmap_get map k'.
Proof.
  intros _ Hkey Hdel k' ukey' Hkey' Hne. revert Hdel.
  unfold hashmap_delete. rewrite Hkey. simpl.
  set (b := bucket_index map ukey). set (node := table map !!! b).
  destruct (capacity node =? 0); [discriminate |].
  destruct (hashmap_delete_loop _ _ _ _ _) as [p|] eqn:Hloop;
    [|by intros [= _ _ <-]].
  intros [= _ _ <-].
  apply hashmap_delete_loop_occupied in Hloop.
  apply occupied_by_true in Hloop as [Hdata Hk].
  set (b' := bucket_index map ukey').
  destruct (decide (b = b' /\ b < length (table map))) as [[Heq Hb] | Hn].
  2: { apply (hashmap_get_ext _ _ _ ukey'); try done. simpl. fold b'.
       rewrite list_lookup_total_insert. by rewrite decide_False. }
  unfold hashmap_get.
  rewrite (_compute_key_ext map) by done. rewrite Hkey'. simpl.
  unfold _get_item. rewrite bucket_index_set_table. fold b'. rewrite <- Heq.
  cbn [table set_table]. rewrite list_lookup_total_insert_eq by done.
  cbn [capacity]. fold node. destruct (capacity node =? 0); [done |].
  rewrite !_get_item_loop_find. cbn [items capacity].
  set (idx := slot_index ukey' (capacity node)).
  assert (forall q,
            hit false ukey' (<[p := unused_item]> (items node) !!! q)
            = hit false ukey' (items node !!! q)) as Hsame.
  { intros q. rewrite list_lookup_total_insert.
    destruct (decide (p = q /\ p < length (items node))) as [[<- _] | _];
      [|done].
    unfold hit, occupied_by. simpl. symmetry.
    rewrite orb_false_r. apply andb_false_iff. right.
    destruct (KEY_EQU _ _) eqn:Heq'; [|done].
    apply KEY_EQU_eq in Heq'. congruence. }
  erewrite find_from_ext; [|intros j _; apply Hsame].
  destruct (find_from _ 0 (capacity node)) as [j|] eqn:Hfind; [|done].
  simpl. apply find_from_Some in Hfind as (_ & Hhit & _).
  rewrite list_lookup_total_insert_eq by done. simpl.
  rewrite list_lookup_total_insert.
  destruct (decide (p = (idx + j) mod capacity node
                    /\ p < length (items node))) as [[Heq' _] | _]; [|done].
  exfalso. rewrite <- Heq' in Hhit. unfold hit, occupied_by in Hhit.
  rewrite orb_false_r in Hhit. apply andb_true_iff in Hhit as [_ Hhit].
  apply KEY_EQU_eq in Hhit. congruence.
Qed.

Lemma hashmap_delete_other_keys_witness :
  let map := exec one_bucket [OpSet all_ok "af"%string 1%N;
                              OpSet all_ok "an"%string 2%N] in
  let map' := exec map [OpDelete "af"%string None] in
  hashmap_delete map "af"%string None = Ok (true, None, map') /\
  hashmap_get map' "an"%string = hashmap_get map "an"%string /\
  hashmap_get map' "an"%string = Ok 2%N.
Proof.
  intros map map'.
  assert (hashmap_delete map "af"%string None = Ok (true, None, map'))
    as Hdel by (vm_compute; reflexivity).
  assert (wf_map map) as Hwf
    by (apply wf_mapb_true; vm_compute; reflexivity).
  split; [exact Hdel |]. split; [|vm_compute; reflexivity].
  apply (hashmap_delete_other_keys map "af"%string
           {| pkey := 97; skey := 102 |} None true None map' Hwf
           ltac:(vm_compute; reflexivity) Hdel
           "an"%string {| pkey := 97; skey := 110 |}
           ltac:(vm_compute; reflexivity)).
  discriminate.
Defined.

(** ** Deletion and lookup *)

Lemma hashmap_delete_miss map k ukey out :
  let node := table map !!! bucket_index map ukey in
  _compute_key map k = Ok ukey ->
  capacity node <> 0 ->
  (forall q, occupied_by ukey (items node !!! q) = false) ->
  hashmap_delete map k out = Ok (false, out, map).
Proof.
  intros node Hkey Hcap Hnone. unfold hashmap_delete. rewrite Hkey. simpl.
  fold node.
  destruct (capacity node =? 0) eqn:Hzero; nat_tests; [lia |].
  destruct (hashmap_delete_loop _ _ _ _ _) as [p|] eqn:Hloop; [|done].
  apply hashmap_delete_loop_occupied in Hloop. by rewrite Hnone in Hloop.
Qed.

(** X6. When the key is stored in one slot only, a successful [hashmap_delete]
    hands out what [hashmap_get] returned before it, after it [hashmap_get]
    returns NULL for the key, and a second [hashmap_delete] of the key returns
    false. *)
Theorem hashmap_delete_then_get map k ukey out out' map' :
  let node := table map !!! bucket_index map ukey in
  wf_map map ->
  _compute_key map k = Ok ukey ->
  (forall p q,
     occupied_by ukey (items node !!! p) = true ->
     occupied_by ukey (items node !!! q) = true -> p = q) ->
  hashmap_delete map k out = Ok (true, out', map') ->
  exists d,
    d <> NULL /\
    hashmap_get map k = Ok d /\
    (forall v, out = Some v -> out' = Some d) /\
    hashmap_get map' k = Ok NULL /\
    hashmap_delete map' k out' = Ok (false, out', map').
Proof.
  intros node Hwf Hkey Huniq. unfold hashmap_delete at 1.
  rewrite Hkey. simpl. set (b := bucket_index map ukey) in *. fold node.
  destruct (capacity node =? 0) eqn:Hzero; [discriminate |]. nat_tests.
  destruct (hashmap_delete_loop _ _ _ _ _) as [p|] eqn:Hloop;
    [|discriminate].
  intros [= <- <-].
  assert (p < capacity node) as Hp
    by (eapply hashmap_delete_loop_lt; [lia | done]).
  pose proof (hashmap_delete_loop_occupied _ _ _ _ _ _ Hloop) as Hocc.
  assert (b < length (table map)) as Hb.
  { destruct Hwf as (? & -> & _). by apply bucket_index_lt. }
  assert (length (items node) = capacity node) as Hnode.
  { apply wf_map_bucket; [done |]. apply bucket_index_lt, Hwf. }
  set (map' := set_table map _).
  assert (_compute_key map' k = Ok ukey) as Hkey'
    by (by rewrite (_compute_key_ext map)).
  assert (table map' !!! bucket_index map' ukey
          = {| items := <[p := unused_item]> (items node);
               count := count node;
               capacity := capacity node |}) as Hnode'.
  { unfold map'. rewrite bucket_index_set_table. fold b. simpl.
    by rewrite list_lookup_total_insert_eq. }
  assert (forall q,
            occupied_by ukey (<[p := unused_item]> (items node) !!! q)
            = false) as Hgone.
  { intros q. destruct (decide (q = p)) as [-> | Hne].
    - by rewrite list_lookup_total_insert_eq by lia.
    - rewrite list_lookup_total_insert_ne by done.
      destruct (occupied_by ukey (items node !!! q)) eqn:Hq; [|done].
      destruct Hne. by apply Huniq. }
  exists (data (items node !!! p)).
  pose proof Hocc as [Hdata _]%occupied_by_true.
  split; [done |]. split; [|split; [|split]].
  - destruct (hashmap_get_hit map k ukey p Hkey Hp Hocc)
      as (q & _ & Hq & ->).
    fold b node in Hq |- *. by rewrite (Huniq q p).
  - by intros v ->.
  - pose proof (hashmap_get_miss map' k ukey Hkey') as Hmiss.
    cbv zeta in Hmiss. rewrite Hnode' in Hmiss. apply Hmiss. simpl. auto.
  - pose proof (hashmap_delete_miss map' k ukey
                  (match out with
                   | Some _ => Some (data (items node !!! p))
                   | None => None
                   end) Hkey') as Hmiss.
    cbv zeta in Hmiss. rewrite Hnode' in Hmiss. apply Hmiss; simpl; [lia |].
    auto.
Qed.

Lemma hashmap_delete_then_get_witness :
  let map := exec one_bucket [OpSet all_ok "af"%string 1%N;
                              OpSet all_ok "an"%string 2%N] in
  let map' := exec map [OpDelete "af"%string (Some NULL)] in
  hashmap_delete map "af"%string (Some NULL) = Ok (true, Some 1%N, map') /\
  exists d,
    d <> NULL /\
    hashmap_get map "af"%string = Ok d /\
    (forall v, Some NULL = Some v -> Some 1%N = Some d) /\
    hashmap_get map' "af"%string = Ok NULL /\
    hashmap_delete map' "af"%string (Some 1%N) = Ok (false, Some 1%N, map').
Proof.
  intros map map'.
  assert (hashmap_delete map "af"%string (Some NULL)
          = Ok (true, Some 1%N, map')) as Hdel by (vm_compute; reflexivity).
  split; [exact Hdel |].
  apply (hashmap_delete_then_get map "af"%string
           {| pkey := 97; skey := 102 |} (Some NULL) (Some 1%N) map').
  - apply wf_mapb_true. vm_compute. reflexivity.
  - vm_compute. reflexivity.
  - intros p q Hp Hq.
    assert (forall i, occupied_by {| pkey := 97; skey := 102 |}
                        (items (table map !!! 0) !!! i) = true -> i = 6)
      as Hsix.
    { intros i. do 8 (destruct i as [|i]; [vm_compute; done |]).
      vm_compute. discriminate. }
    rewrite (Hsix p Hp). symmetry. exact (Hsix q Hq).
  - exact Hdel.
Defined.

(** ** The entries of a container *)

Section FlatMap.
Context {A B : Type} (g : A -> list B) `{!Inhabited A}.

Lemma flat_map_insert (l : list A) p x :
  p < length l ->
  flat_map g (<[p := x]> l) ++ g (l !!! p) ≡ₚ g x ++ flat_map g l.
Proof.
  revert p. induction l as [|y l IH]; intros p Hp; simpl in *; [lia |].
  destruct p as [|p]; simpl.
  - rewrite <- app_assoc. f_equiv. apply Permutation_app_comm.
  - rewrite <- app_assoc, IH by lia. rewrite !app_assoc. f_equiv.
    apply Permutation_app_comm.
Qed.

Lemma elem_of_flat_map (l : list A) e :
  e ∈ flat_map g l <-> exists p, p < length l /\ e ∈ g (l !!! p).
Proof.
  induction l as [|y l IH]; simpl.
  - split; [by intros ?%elem_of_nil | intros (? & ? & _); lia].
  - rewrite elem_of_app, IH. split.
    + intros [Hy | (p & Hp & He)]; [exists 0 | exists (S p)]; simpl;
        (split; [lia | done]).
    + intros ([|p] & Hp & He); simpl in *; [by left |].
      right. exists p. split; [lia | done].
Qed.

End FlatMap.

Lemma elem_of_entries its k d :
  (k, d) ∈ entries its <->
  exists p, p < length its /\ its !!! p = {| key := k; data := d |}
            /\ d <> NULL.
Proof.
  unfold entries. rewrite elem_of_flat_map. split.
  - intros (p & Hp & He). exists p. split; [done |].
    destruct (its !!! p) as [k' d'] eqn:Hit. simpl in He.
    destruct (is_null d') eqn:Hnull; [by apply elem_of_nil in He |].
    apply list_elem_of_singleton in He as [= -> ->].
    split; [done |]. by apply is_null_false.
  - intros (p & Hp & Hit & Hd). exists p. split; [done |].
    rewrite Hit. simpl.
    apply is_null_false in Hd as ->. by apply list_elem_of_singleton.
Qed.

Lemma entries_cons it its : entries (it :: its) = entries [it] ++ entries its.
Proof. unfold entries. simpl. by rewrite app_nil_r. Qed.

Lemma entries_replicate_unused n : entries (replicate n unused_item) = [].
Proof. induction n as [|n IH]; [done |]. exact IH. Qed.

Lemma entries_free it : occupied it = false -> entries [it] = [].
Proof.
  unfold occupied, entries. simpl. by destruct (is_null (data it)).
Qed.

Lemma length_entries its : length (entries its) = occupancy its.
Proof.
  induction its as [|it its IH]; [done |].
  unfold entries in *. simpl. rewrite length_app, IH.
  unfold occupied. by destruct (is_null (data it)).
Qed.

(** Storing into a slot exchanges the entry of the slot for the entry of
    what is stored. *)
Lemma entries_insert its p x :
  p < length its ->
  entries (<[p := x]> its) ++ entries [its !!! p]
  ≡ₚ entries [x] ++ entries its.
Proof.
  intros Hp. unfold entries at 2 3. simpl. rewrite !app_nil_r.
  by apply (flat_map_insert
              (fun it => if is_null (data it) then []
                         else [(key it, data it)])).
Qed.

Lemma entries_insert_free its p x :
  p < length its ->
  occupied (its !!! p) = false ->
  entries (<[p := x]> its) ≡ₚ entries [x] ++ entries its.
Proof.
  intros Hp Hfree. rewrite <- (entries_insert its p x Hp).
  by rewrite (entries_free _ Hfree), app_nil_r.
Qed.

Lemma first_free_is_Some its cap idx :
  length its = cap ->
  occupancy its < cap ->
  idx < cap ->
  is_Some (first_free its cap idx 0 cap).
Proof.
  intros Hlen Hocc Hidx. rewrite first_free_find.
  destruct (occupancy_free_slot its) as (q & Hq & Hfree); [lia |].
  destruct (probe_covers cap idx q) as (j & Hj & Hprobe); [lia.. |].
  destruct (find_from_is_Some
              (fun j => is_null (data (its !!! ((idx + j) mod cap))))
              0 cap j) as [i ->]; [lia | | done].
  rewrite Hprobe. apply occupied_false in Hfree. by apply is_null_true.
Qed.

(** One round of the re-insertion adds the entry of the slot it moves, as
    long as the new array is not full. *)
Lemma entries_reinsert cap its src :
  length its = cap ->
  occupancy its < cap ->
  entries (reinsert cap its src) ≡ₚ entries [src] ++ entries its.
Proof.
  intros Hlen Hocc. unfold reinsert.
  destruct (first_free_is_Some its cap (slot_index (key src) cap))
    as [p Hp]; [done.. | apply slot_index_lt; lia |].
  rewrite Hp. apply entries_insert_free.
  - rewrite first_free_find in Hp.
    destruct (find_from _ 0 cap) as [j|]; [|done].
    injection Hp as <-. rewrite Hlen. apply Nat.mod_upper_bound. lia.
  - by eapply first_free_free.
Qed.

Lemma entries_foldl_reinsert cap todo :
  forall arr,
    length arr = cap ->
    occupancy arr + occupancy todo < cap ->
    entries (foldl (reinsert cap) arr todo) ≡ₚ entries arr ++ entries todo.
Proof.
  induction todo as [|src todo IH]; intros arr Hlen Hocc; cbn [foldl].
  - change (entries []) with (@nil (HashMapBucketKey * ptr)).
    by rewrite app_nil_r.
  - simpl in Hocc. rewrite IH.
    + rewrite entries_reinsert by (done || lia).
      rewrite (entries_cons src todo).
      rewrite (app_assoc (entries arr)). f_equiv.
      apply Permutation_app_comm.
    + by rewrite length_reinsert.
    + pose proof (occupancy_reinsert cap arr src). lia.
Qed.

(** In a well-formed container [hashmap_iterate] visits the entries of the
    buckets, in the order of the primary table. *)
Lemma hashmap_iterate_entries map :
  wf_map map ->
  hashmap_iterate map = flat_map (fun node => entries (items node)) (table map).
Proof.
  intros (_ & Hlen & Hall). unfold hashmap_iterate.
  rewrite take_ge by lia. clear Hlen.
  induction Hall as [|node t Hnode _ IH]; [done |].
  simpl. rewrite IH. f_equal. unfold wf_bucket in Hnode.
  destruct (capacity node =? 0) eqn:Hzero; nat_tests.
  - destruct (items node); [done | simpl in *; lia].
  - by rewrite take_ge by lia.
Qed.

Section FlatMapChange.
Context {A B : Type} (g : A -> list B) `{!Inhabited A}.

(** Two lists that differ in one place. *)
Lemma flat_map_change_one (l l' : list A) b old new :
  length l' = length l ->
  b < length l ->
  (forall i, i <> b -> l' !!! i = l !!! i) ->
  g (l' !!! b) ++ old ≡ₚ new ++ g (l !!! b) ->
  flat_map g l' ++ old ≡ₚ new ++ flat_map g l.
Proof.
  intros Hlen Hb Hothers Hperm.
  remember (l' !!! b) as x eqn:Hx.
  assert (l' = <[b := x]> l) as ->.
  { apply list_eq_same_length with (length l);
      [by rewrite length_insert | done |].
    intros i y z Hi Hy Hz.
    apply list_lookup_total_correct in Hy, Hz. subst y z.
    rewrite list_lookup_total_insert.
    destruct (decide (b = i /\ b < length l)) as [[-> _] | Hne]; [done |].
    apply Hothers. lia. }
  apply (Permutation_app_inv_r (g (l !!! b))).
  rewrite <- (app_assoc _ old), (Permutation_app_comm old), app_assoc.
  rewrite (flat_map_insert g l b x Hb).
  rewrite <- (app_assoc (g x)), (Permutation_app_comm (flat_map g l) old).
  rewrite app_assoc, Hperm, <- !app_assoc. f_equiv.
  apply Permutation_app_comm.
Qed.

End FlatMapChange.

Lemma _get_item_loop_hit node k empty idx i n p :
  _get_item_loop node k empty idx i n = Some p ->
  hit empty k (items node !!! p) = true.
Proof.
  rewrite _get_item_loop_find.
  destruct (find_from _ i n) as [j|] eqn:Hfind; [|done].
  intros [= <-]. by apply find_from_Some in Hfind as (_ & Hhit & _).
Qed.

(** The re-insertion loop of [_grow_node_if_needed] moves every entry of the
    old slot array into the new one: a bucket of a reachable container has
    fewer entries than slots, and the new array is twice as long. *)
Lemma grow_result_entries map b grown t :
  map_inv map ->
  b < length (table map) ->
  grow_result map b grown t ->
  length t = length (table map) /\
  (forall b', b' <> b -> t !!! b' = table map !!! b') /\
  entries (items (t !!! b)) ≡ₚ entries (items (table map !!! b)).
Proof.
  intros Hinv Hb Hres.
  assert (bucket_inv (table map !!! b)) as (Hwfb & Hocc & Hshape).
  { apply map_inv_bucket; [done |]. by destruct Hinv as (_ & <- & _). }
  unfold wf_bucket in Hwfb.
  destruct (grow_result_cases _ _ _ _ Hres)
    as [(_ & _ & ->) | [(_ & _ & ->) | [(_ & Hzero & ->) | (_ & Hcap & ->)]]];
    [done | done | |].
  - rewrite length_insert. split; [done |].
    split; [intros; by rewrite list_lookup_total_insert_ne |].
    rewrite list_lookup_total_insert_eq by done. cbn [items].
    rewrite entries_replicate_unused.
    destruct (items (table map !!! b)); [done | simpl in *; lia].
  - rewrite length_insert. split; [done |].
    split; [intros; by rewrite list_lookup_total_insert_ne |].
    rewrite list_lookup_total_insert_eq by done. cbn [items].
    rewrite entries_foldl_reinsert.
    + by rewrite entries_replicate_unused.
    + by rewrite length_replicate.
    + rewrite occupancy_replicate_unused. lia.
Qed.

(** What a successful [hashmap_set] does to the bucket of its key, and to
    no other bucket. *)
Lemma hashmap_set_bucket a map k d ukey map' freed :
  let b := bucket_index map ukey in
  map_inv map ->
  _compute_key map k = Ok ukey ->
  hashmap_set a map k d = Ok (true, map', freed) ->
  table_capacity map' = table_capacity map /\
  length (table map') = length (table map) /\
  (forall b', b' <> b -> table map' !!! b' = table map !!! b') /\
  exists old,
    entries (items (table map' !!! b)) ++ old
    ≡ₚ entries [{| key := ukey; data := d |}]
       ++ entries (items (table map !!! b)) /\
    (old = [] /\ freed = [] \/
     exists d0,
       d0 <> NULL /\ old = [(ukey, d0)] /\
       freed = if free_item map then [d0] else []).
Proof.
  intros b Hinv Hkey Hset.
  pose proof (map_inv_wf _ Hinv) as Hwf.
  assert (b < length (table map)) as Hb.
  { destruct Hwf as (? & -> & _). by apply bucket_index_lt. }
  unfold hashmap_set in Hset. rewrite Hkey in Hset. simpl in Hset.
  pose proof (_grow_node_if_needed_inv a map ukey Hinv) as [Hinv1 _].
  pose proof (_grow_node_if_needed_result a map ukey Hwf) as Hres.
  pose proof (_grow_node_if_needed_fields a map ukey)
    as (Htc & _ & Hfree & _).
  destruct (_grow_node_if_needed a map ukey) as [grown map1].
  cbn [fst snd] in *. fold b in Hres.
  destruct grown; simpl in Hset; [|discriminate].
  destruct (_get_item map1 ukey true) as [b1 [p|]] eqn:Hitem;
    [|discriminate].
  injection Hset as <- <-.
  apply _get_item_Some in Hitem as (-> & _ & Hp & Hloop).
  assert (bucket_index map1 ukey = b) as Hb1
    by (unfold b, bucket_index; by rewrite Htc).
  rewrite Hb1 in *.
  destruct (grow_result_entries _ _ _ _ Hinv Hb Hres)
    as (Hlen1 & Hothers1 & Hperm1).
  set (node1 := table map1 !!! b) in *.
  assert (length (items node1) = capacity node1) as Hwf1.
  { apply map_inv_bucket; [done |]. rewrite Htc.
    by destruct Hwf as (_ & <- & _). }
  cbn [table set_table table_capacity].
  split; [done |]. split; [by rewrite length_insert |].
  split.
  { intros b' Hne. rewrite list_lookup_total_insert_ne by done. auto. }
  rewrite list_lookup_total_insert_eq by lia. cbn [items].
  set (item := items node1 !!! p) in *.
  exists (entries [item]). split.
  - unfold item. rewrite (entries_insert (items node1) p) by lia. f_equiv.
    exact Hperm1.
  - apply _get_item_loop_hit in Hloop. fold item in Hloop.
    unfold hit, occupied_by, occupied in Hloop. unfold entries. simpl.
    destruct (is_null (data item)) eqn:Hnull; [by left |].
    right. exists (data item). simpl in Hloop.
    rewrite orb_false_r in Hloop. apply KEY_EQU_eq in Hloop as ->.
    split; [by apply is_null_false |]. by rewrite Hfree.
Qed.

(** X7. A successful [hashmap_set] adds the entry of its arguments to what
    [hashmap_iterate] visits and takes away at most one entry, which has the
    same two-part key and whose data is what [free_item] is called on: every
    other entry is visited before and after the call, as many times, also when
    the bucket is reallocated. *)
Theorem hashmap_set_entries a map k d ukey map' freed :
  reachable map ->
  _compute_key map k = Ok ukey ->
  hashmap_set a map k d = Ok (true, map', freed) ->
  exists old,
    hashmap_iterate map' ++ old
    ≡ₚ entries [{| key := ukey; data := d |}] ++ hashmap_iterate map /\
    (old = [] /\ freed = [] \/
     exists d0,
       d0 <> NULL /\ old = [(ukey, d0)] /\
       freed = if free_item map then [d0] else []).
Proof.
  intros Hinv%reachable_inv Hkey Hset.
  pose proof (hashmap_set_inv _ _ _ _ _ _ _ Hinv Hset) as [Hinv' _].
  destruct (hashmap_set_bucket _ _ _ _ _ _ _ Hinv Hkey Hset)
    as (_ & Hlen & Hothers & old & Hperm & Hold).
  exists old. split; [|done].
  rewrite !hashmap_iterate_entries by by apply map_inv_wf.
  apply (flat_map_change_one _ _ _ (bucket_index map ukey)); try done.
  destruct Hinv as (? & -> & _). by apply bucket_index_lt.
Qed.

Lemma hashmap_set_entries_witness :
  let map := exec one_bucket [OpSet all_ok "af"%string 1%N] in
  let map' := exec map [OpSet all_ok "af"%string 2%N] in
  let ukey := {| pkey := 97; skey := 102 |} in
  hashmap_set all_ok map "af"%string 2%N = Ok (true, map', [1%N]) /\
  exists old,
    hashmap_iterate map' ++ old
    ≡ₚ entries [{| key := ukey; data := 2%N |}] ++ hashmap_iterate map /\
    (old = [] /\ [1%N] = [] \/
     exists d0,
       d0 <> NULL /\ old = [(ukey, d0)] /\
       [1%N] = if free_item map then [d0] else []).
Proof.
  intros map map' ukey.
  assert (hashmap_set all_ok map "af"%string 2%N = Ok (true, map', [1%N]))
    as Hset by (vm_compute; reflexivity).
  split; [exact Hset |].
  apply (hashmap_set_entries all_ok map "af"%string 2%N ukey map' [1%N]).
  - exists 1, collision_hash, true, one_bucket,
      [OpSet all_ok "af"%string 1%N].
    split; vm_compute; reflexivity.
  - vm_compute. reflexivity.
  - exact Hset.
Defined.

(** What a successful [hashmap_delete] does to the bucket of its key, and
    to no other bucket. *)
Lemma hashmap_delete_bucket map k ukey out out' map' :
  let b := bucket_index map ukey in
  wf_map map ->
  _compute_key map k = Ok ukey ->
  hashmap_delete map k out = Ok (true, out', map') ->
  wf_map map' /\
  table_capacity map' = table_capacity map /\
  hash_function map' = hash_function map /\
  free_item map' = free_item map /\
  length (table map') = length (table map) /\
  (forall b', b' <> b -> table map' !!! b' = table map !!! b') /\
  exists d,
    d <> NULL /\
    entries (items (table map' !!! b)) ++ [(ukey, d)]
    ≡ₚ entries (items (table map !!! b)) /\
    out' = match out with Some _ => Some d | None => None end.
Proof.
  intros b Hwf Hkey. unfold hashmap_delete. rewrite Hkey. simpl.
  fold b. set (node := table map !!! b).
  destruct (capacity node =? 0) eqn:Hzero; [discriminate |]. nat_tests.
  destruct (hashmap_delete_loop _ _ _ _ _) as [p|] eqn:Hloop;
    [|discriminate].
  intros [= <- <-].
  assert (p < capacity node) as Hp
    by (eapply hashmap_delete_loop_lt; [lia | done]).
  apply hashmap_delete_loop_occupied in Hloop.
  apply occupied_by_true in Hloop as [Hdata Hk].
  assert (b < length (table map)) as Hb.
  { destruct Hwf as (? & -> & _). by apply bucket_index_lt. }
  assert (length (items node) = capacity node) as Hnode.
  { apply wf_map_bucket; [done |]. apply bucket_index_lt, Hwf. }
  cbn [table set_table table_capacity hash_function free_item].
  split_and!; try done.
  - destruct Hwf as (Hpos & Hlen & Hall). split_and!; simpl; [done | |].
    + by rewrite length_insert.
    + apply Forall_insert; [done |]. unfold wf_bucket. simpl.
      by rewrite length_insert.
  - by rewrite length_insert.
  - intros b' Hne. by rewrite list_lookup_total_insert_ne.
  - exists (data (items node !!! p)). split; [done |]. split; [|done].
    rewrite list_lookup_total_insert_eq by done. cbn [items].
    assert (entries [items node !!! p] = [(ukey, data (items node !!! p))])
      as <-.
    { unfold entries. simpl. apply is_null_false in Hdata as ->.
      by rewrite Hk. }
    by rewrite (entries_insert (items node) p unused_item) by lia.
Qed.

(** X8. A successful [hashmap_delete] takes exactly one entry away from what
    [hashmap_iterate] visits: an entry of the key, whose data is what the
    out-parameter receives. [free_item] is not called, with or without an
    out-parameter. *)
Theorem hashmap_delete_entries map k ukey out out' map' :
  wf_map map ->
  _compute_key map k = Ok ukey ->
  hashmap_delete map k out = Ok (true, out', map') ->
  exists d,
    d <> NULL /\
    hashmap_iterate map ≡ₚ (ukey, d) :: hashmap_iterate map' /\
    out' = match out with Some _ => Some d | None => None end.
Proof.
  intros Hwf Hkey Hdel.
  destruct (hashmap_delete_bucket _ _ _ _ _ _ Hwf Hkey Hdel)
    as (Hwf' & _ & _ & _ & Hlen & Hothers & d & Hd & Hperm & Hout).
  exists d. split; [done |]. split; [|done].
  rewrite !hashmap_iterate_entries by done.
  rewrite Permutation_cons_append. symmetry.
  apply (flat_map_change_one _ (table map) (table map')
           (bucket_index map ukey) [(ukey, d)] []); try done.
  destruct Hwf as (? & -> & _). by apply bucket_index_lt.
Qed.

Lemma hashmap_delete_entries_witness :
  let map := exec one_bucket [OpSet all_ok "af"%string 1%N;
                              OpSet all_ok "an"%string 2%N] in
  let map' := exec map [OpDelete "af"%string None] in
  let ukey := {| pkey := 97; skey := 102 |} in
  hashmap_delete map "af"%string None = Ok (true, None, map') /\
  exists d,
    d <> NULL /\
    hashmap_iterate map ≡ₚ (ukey, d) :: hashmap_iterate map' /\
    None = @None ptr.
Proof.
  intros map map' ukey.
  assert (hashmap_delete map "af"%string None = Ok (true, None, map'))
    as Hdel by (vm_compute; reflexivity).
  split; [exact Hdel |].
  apply (hashmap_delete_entries map "af"%string ukey None None map').
  - apply wf_mapb_true. vm_compute. reflexivity.
  - vm_compute. reflexivity.
  - exact Hdel.
Defined.

(** ** Destruction *)

Lemma hashmap_destroy_bucket its :
  flat_map (fun it => if is_null (data it) then [] else [data it]) its
  = (entries its).*2.
Proof.
  induction its as [|it its IH]; [done |].
  rewrite entries_cons, fmap_app. simpl. rewrite IH.
  unfold entries. simpl. by destruct (is_null (data it)).
Qed.

Lemma hashmap_destroy_frees_entries_aux map :
  wf_map map ->
  hashmap_destroy map
  = if free_item map
    then (flat_map (fun node => entries (items node)) (table map)).*2
    else [].
Proof.
  intros (_ & Hlen & Hall). unfold hashmap_destroy.
  rewrite take_ge by lia. clear Hlen.
  induction Hall as [|node t Hnode _ IH]; [by destruct (free_item map) |].
  simpl. rewrite IH. unfold wf_bucket in Hnode.
  destruct (free_item map); [|by destruct (items node)].
  rewrite fmap_app. f_equal.
  destruct (items node) as [|it its] eqn:Hits; [done |].
  rewrite <- Hnode, take_ge by lia. apply hashmap_destroy_bucket.
Qed.

(** X9. [hashmap_destroy] calls [free_item], when the container has one, on
    the data of every entry that [hashmap_iterate] visits, once for each visit
    and in the same order, and on nothing else. *)
Theorem hashmap_destroy_frees_entries map :
  wf_map map ->
  hashmap_destroy map
  = if free_item map then (hashmap_iterate map).*2 else [].
Proof.
  intros Hwf. rewrite hashmap_iterate_entries by done.
  by apply hashmap_destroy_frees_entries_aux.
Qed.

Lemma hashmap_destroy_frees_entries_witness :
  let map := exec one_bucket [OpSet all_ok "af"%string 1%N;
                              OpSet all_ok "an"%string 2%N] in
  hashmap_destroy map = [1%N; 2%N] /\
  hashmap_destroy map
  = if free_item map then (hashmap_iterate map).*2 else [].
Proof.
  intros map. split; [vm_compute; reflexivity |].
  apply hashmap_destroy_frees_entries, wf_mapb_true.
  vm_compute. reflexivity.
Defined.

(** ** Lookup and iteration *)

Lemma lookup_total_replicate_unused_bucket n b :
  replicate n unused_bucket !!! b = unused_bucket.
Proof.
  revert b. induction n as [|n IH]; intros [|b]; simpl; auto.
Qed.

Lemma homed_created cap hash free map :
  hashmap_create true cap hash free = Ok (Some map) -> homed map.
Proof.
  unfold hashmap_create. destruct (cap =? 0); [discriminate |].
  intros [= <-] b e. simpl. rewrite lookup_total_replicate_unused_bucket.
  by intros ?%elem_of_nil.
Qed.

(** A call of [hashmap_set] that returns false has changed the scratch
    buffer at most. *)
Lemma hashmap_set_false_table a map k d map' freed :
  map_inv map ->
  hashmap_set a map k d = Ok (false, map', freed) ->
  table map' = table map /\
  table_capacity map' = table_capacity map /\
  hash_function map' = hash_function map /\
  free_item map' = free_item map /\
  freed = [].
Proof.
  intros Hinv Hset.
  destruct (_compute_key map k) as [ukey| |] eqn:Hkey;
    [|unfold hashmap_set in Hset; rewrite Hkey in Hset; discriminate..].
  pose proof (hashmap_set_false_inv _ _ _ _ _ _ _ Hinv Hkey Hset) as Hgrow.
  pose proof (_grow_node_if_needed_result a map ukey (map_inv_wf _ Hinv))
    as Hres.
  pose proof (_grow_node_if_needed_fields a map ukey)
    as (Htc & Hhash & Hfree & _).
  unfold hashmap_set in Hset. rewrite Hkey in Hset. simpl in Hset.
  destruct (_grow_node_if_needed a map ukey) as [grown map1].
  cbn [fst snd] in *. subst grown. simpl in Hset.
  injection Hset as <- <-.
  destruct (grow_result_cases _ _ _ _ Hres)
    as [(? & _) | [(_ & _ & ->) | [(? & _) | (? & _)]]]; done.
Qed.

Lemma hashmap_set_homed a map k d r map' freed :
  map_inv map ->
  homed map ->
  hashmap_set a map k d = Ok (r, map', freed) ->
  homed map'.
Proof.
  intros Hinv Hhomed Hset. destruct r.
  - destruct (_compute_key map k) as [ukey| |] eqn:Hkey;
      [|unfold hashmap_set in Hset; rewrite Hkey in Hset; discriminate..].
    destruct (hashmap_set_bucket _ _ _ _ _ _ _ Hinv Hkey Hset)
      as (Htc & _ & Hothers & old & Hperm & _).
    intros b' e He.
    assert (bucket_index map' e.1 = bucket_index map e.1) as ->
      by (unfold bucket_index; by rewrite Htc).
    destruct (decide (b' = bucket_index map ukey)) as [-> | Hne].
    + assert (e ∈ entries [{| key := ukey; data := d |}]
                  ++ entries (items (table map !!! bucket_index map ukey)))
        as [Hnew | Hold]%elem_of_app.
      { rewrite <- Hperm. apply elem_of_app. by left. }
      * destruct e as [k' d'].
        apply elem_of_entries in Hnew as ([|p] & Hp & Hit & _);
          simpl in Hp; [|lia].
        simpl in Hit. by injection Hit as <- <-.
      * by apply Hhomed.
    + rewrite Hothers in He by done. by apply Hhomed.
  - destruct (hashmap_set_false_table _ _ _ _ _ _ Hinv Hset)
      as (Htable & Htc & _).
    intros b' e. rewrite Htable. unfold bucket_index. rewrite Htc.
    apply Hhomed.
Qed.

Lemma hashmap_delete_homed map k out r out' map' :
  wf_map map ->
  homed map ->
  hashmap_delete map k out = Ok (r, out', map') ->
  homed map'.
Proof.
  intros Hwf Hhomed Hdel.
  destruct (_compute_key map k) as [ukey| |] eqn:Hkey;
    [|unfold hashmap_delete in Hdel; rewrite Hkey in Hdel; discriminate..].
  destruct r.
  - destruct (hashmap_delete_bucket _ _ _ _ _ _ Hwf Hkey Hdel)
      as (_ & Htc & _ & _ & _ & Hothers & d' & _ & Hperm & _).
    intros b' e He.
    assert (bucket_index map' e.1 = bucket_index map e.1) as ->
      by (unfold bucket_index; by rewrite Htc).
    destruct (decide (b' = bucket_index map ukey)) as [-> | Hne].
    + apply Hhomed. rewrite <- Hperm. apply elem_of_app. by left.
    + rewrite Hothers in He by done. by apply Hhomed.
  - revert Hdel. unfold hashmap_delete. rewrite Hkey. simpl.
    destruct (capacity _ =? 0); [discriminate |].
    destruct (hashmap_delete_loop _ _ _ _ _); [discriminate |].
    by intros [= _ <-].
Qed.

Lemma apply_op_homed map o map' :
  map_inv map -> homed map -> apply_op map o = Ok map' -> homed map'.
Proof.
  intros Hinv Hhomed. destruct o as [a k d | k | k out |]; simpl.
  - destruct (hashmap_set a map k d) as [[[r m] fr]| |] eqn:Hset;
      simpl; try discriminate.
    intros [= <-]. by eapply hashmap_set_homed.
  - destruct (hashmap_get map k); simpl; try discriminate. by intros [= <-].
  - destruct (hashmap_delete map k out) as [[[r o] m]| |] eqn:Hdel;
      simpl; try discriminate.
    intros [= <-]. eapply hashmap_delete_homed; [|done..].
    by apply map_inv_wf.
  - by intros [= <-].
Qed.

Lemma run_homed map ops map' :
  map_inv map -> homed map -> run map ops = Ok map' -> homed map'.
Proof.
  revert map. induction ops as [|o ops IH]; intros map Hinv Hhomed; simpl.
  - by intros [= <-].
  - destruct (apply_op map o) as [map1| |] eqn:Hop; simpl; try discriminate.
    apply IH; [by eapply apply_op_inv | by eapply apply_op_homed].
Qed.

Lemma reachable_homed map : reachable map -> homed map.
Proof.
  intros (cap & hash & free & map0 & ops & Hcreate & Hrun).
  eapply run_homed; [| |done].
  - by eapply hashmap_create_inv.
  - by eapply homed_created.
Qed.

Lemma hashmap_get_visited map k ukey :
  wf_map map ->
  homed map ->
  _compute_key map k = Ok ukey ->
  (hashmap_get map k = Ok NULL <->
   forall d, (ukey, d) ∉ hashmap_iterate map) /\
  (forall d, hashmap_get map k = Ok d -> d <> NULL ->
     (ukey, d) ∈ hashmap_iterate map).
Proof.
  intros Hwf Hhomed Hkey.
  set (b := bucket_index map ukey). set (node := table map !!! b).
  assert (b < length (table map)) as Hb.
  { destruct Hwf as (? & -> & _). by apply bucket_index_lt. }
  assert (length (items node) = capacity node) as Hnode.
  { apply wf_map_bucket; [done |]. apply bucket_index_lt, Hwf. }
  rewrite hashmap_iterate_entries by done.
  assert (forall d,
            (ukey, d) ∈ flat_map (fun node => entries (items node))
                          (table map) <->
            exists p, p < capacity node /\
              items node !!! p = {| key := ukey; data := d |} /\ d <> NULL)
    as Hvisit.
  { intros d. rewrite elem_of_flat_map. split.
    - intros (b' & _ & He). pose proof (Hhomed b' _ He) as Hb'.
      simpl in Hb'. subst b'. fold b node in He.
      apply elem_of_entries in He. by rewrite <- Hnode.
    - intros (p & Hp & Hit & Hd). exists b. split; [done |].
      fold node. apply elem_of_entries. exists p. by rewrite Hnode. }
  split; [split |].
  - intros Hnull d (p & Hp & Hit & Hd)%Hvisit.
    destruct (hashmap_get_hit map k ukey p Hkey Hp)
      as (q & _ & [Hdata _]%occupied_by_true & Hget).
    { fold b node. rewrite Hit. apply occupied_by_true. by simpl. }
    rewrite Hget in Hnull. injection Hnull as Hnull. by destruct Hdata.
  - intros Hnone. apply (hashmap_get_miss map k ukey Hkey).
    fold b node. intros q Hq.
    destruct (occupied_by ukey (items node !!! q)) eqn:Hocc; [|done].
    apply occupied_by_true in Hocc as [Hdata Hk].
    destruct (Hnone (data (items node !!! q))). apply Hvisit.
    exists q. split; [done |]. split; [|done].
    destruct (items node !!! q). simpl in *. by subst.
  - intros d Hget Hd. apply Hvisit.
    destruct (hashmap_get_stored map k ukey d Hkey Hget Hd) as (q & Hq & Hit).
    by exists q.
Qed.

(** X10. In a container reached from [hashmap_create], [hashmap_get] and
    [hashmap_iterate] agree on which keys are stored: [hashmap_get] returns
    NULL exactly for the keys of which [hashmap_iterate] visits no entry, and
    what it returns otherwise is the data of a visited entry of the key. Every
    entry is in the bucket that its key selects, also after a bucket has been
    reallocated. *)
Theorem hashmap_get_iterate map k ukey :
  reachable map ->
  _compute_key map k = Ok ukey ->
  (hashmap_get map k = Ok NULL <->
   forall d, (ukey, d) ∉ hashmap_iterate map) /\
  (forall d, hashmap_get map k = Ok d -> d <> NULL ->
     (ukey, d) ∈ hashmap_iterate map).
Proof.
  intros Hreach. apply hashmap_get_visited.
  - apply map_inv_wf. by apply reachable_inv.
  - by apply reachable_homed.
Qed.

Lemma hashmap_get_iterate_witness :
  let map := exec one_bucket [OpSet all_ok "af"%string 1%N;
                              OpSet all_ok "an"%string 2%N;
                              OpDelete "af"%string None] in
  hashmap_get map "af"%string = Ok NULL /\
  (2%N <> NULL -> ({| pkey := 97; skey := 110 |}, 2%N) ∈ hashmap_iterate map).
Proof.
  intros map.
  assert (reachable map) as Hreach.
  { exists 1, collision_hash, true, one_bucket,
      [OpSet all_ok "af"%string 1%N; OpSet all_ok "an"%string 2%N;
       OpDelete "af"%string None].
    split; vm_compute; reflexivity. }
  split; [vm_compute; reflexivity |].
  apply (proj2 (hashmap_get_iterate map "an"%string
                  {| pkey := 97; skey := 110 |} Hreach
                  ltac:(vm_compute; reflexivity))).
  vm_compute. reflexivity.
Defined.

(** ** The account of a script *)

Lemma hashmap_set_fields a map k d r map' freed :
  hashmap_set a map k d = Ok (r, map', freed) ->
  table_capacity map' = table_capacity map /\
  hash_function map' = hash_function map /\
  free_item map' = free_item map.
Proof.
  unfold hashmap_set.
  destruct (_compute_key map k) as [ukey| |]; simpl; try discriminate.
  pose proof (_grow_node_if_needed_fields a map ukey)
    as (Htc & Hhash & Hfree & _).
  destruct (_grow_node_if_needed a map ukey) as [grown map1].
  cbn [fst snd] in *. destruct grown; simpl; [|by intros [= _ <- _]].
  destruct (_get_item map1 ukey true) as [b [p|]]; by intros [= _ <- _].
Qed.

Lemma account_op_balance map o map' x :
  map_inv map ->
  free_item map = true ->
  with_out o ->
  account_op map o = Ok (map', x) ->
  map_inv map' /\
  free_item map' = true /\
  (hashmap_iterate map).*2 ++ stored x
  ≡ₚ freed x ++ removed x ++ (hashmap_iterate map').*2.
Proof.
  intros Hinv Hfree Hout.
  destruct o as [a k d | k | k out |]; simpl.
  - destruct (hashmap_set a map k d) as [[[r m] fr]| |] eqn:Hset;
      simpl; try discriminate.
    intros [= <- <-]. simpl.
    pose proof (hashmap_set_inv _ _ _ _ _ _ _ Hinv Hset) as [Hinv' _].
    pose proof (hashmap_set_fields _ _ _ _ _ _ _ Hset) as (Htc & _ & Hfree').
    split; [done |]. split; [congruence |]. destruct r; simpl.
    + destruct (_compute_key map k) as [ukey| |] eqn:Hkey;
        [|unfold hashmap_set in Hset; rewrite Hkey in Hset; discriminate..].
      destruct (hashmap_set_bucket _ _ _ _ _ _ _ Hinv Hkey Hset)
        as (_ & Hlen & Hothers & old & Hperm & Hold).
      assert (hashmap_iterate m ++ old
              ≡ₚ entries [{| key := ukey; data := d |}]
                 ++ hashmap_iterate map) as Hiter.
      { rewrite !hashmap_iterate_entries by by apply map_inv_wf.
        apply (flat_map_change_one _ _ _ (bucket_index map ukey));
          try done.
        destruct Hinv as (? & -> & _). by apply bucket_index_lt. }
      assert ((hashmap_iterate m ++ old).*2
              ≡ₚ (entries [{| key := ukey; data := d |}]
                  ++ hashmap_iterate map).*2) as Hdata
        by (by rewrite Hiter).
      rewrite !fmap_app in Hdata.
      assert (old.*2 = fr) as <-.
      { rewrite Hfree in Hold.
        by destruct Hold as [[-> ->] | (d0 & _ & -> & ->)]. }
      assert ((entries [{| key := ukey; data := d |}]).*2
              = if negb (is_null d) then [d] else []) as <-
        by (unfold entries; simpl; by destruct (is_null d)).
      rewrite (Permutation_app_comm (hashmap_iterate map).*2).
      rewrite <- Hdata. apply Permutation_app_comm.
    + destruct (hashmap_set_false_table _ _ _ _ _ _ Hinv Hset)
        as (Htable & _ & _ & _ & ->).
      unfold hashmap_iterate. rewrite Htable, Htc.
      by rewrite app_nil_r.
  - destruct (hashmap_get map k); simpl; try discriminate.
    intros [= <- <-]. simpl. by rewrite app_nil_r.
  - destruct (hashmap_delete map k out) as [[[r o] m]| |] eqn:Hdel;
      simpl; try discriminate.
    intros [= <- <-]. simpl.
    pose proof (hashmap_delete_inv _ _ _ _ _ _ Hinv Hdel) as [Hinv' _].
    split; [done |].
    destruct (_compute_key map k) as [ukey| |] eqn:Hkey;
      [|unfold hashmap_delete in Hdel; rewrite Hkey in Hdel;
        discriminate..].
    destruct r.
    + destruct (hashmap_delete_bucket _ _ _ _ _ _ (map_inv_wf _ Hinv)
                  Hkey Hdel)
        as (Hwf' & _ & _ & Hfree' & Hlen & Hothers & d & _ & Hperm & ->).
      split; [congruence |].
      destruct out as [v|]; [|done]. simpl.
      assert (hashmap_iterate m ++ [(ukey, d)] ≡ₚ hashmap_iterate map)
        as Hiter.
      { rewrite !hashmap_iterate_entries by (done || by apply map_inv_wf).
        apply (flat_map_change_one _ (table map) (table m)
                 (bucket_index map ukey) [(ukey, d)] []); try done.
        destruct Hinv as (? & -> & _). by apply bucket_index_lt. }
      rewrite <- Hiter, fmap_app, app_nil_r. simpl.
      apply Permutation_app_comm.
    + revert Hdel. unfold hashmap_delete. rewrite Hkey. simpl.
      destruct (capacity _ =? 0); [discriminate |].
      destruct (hashmap_delete_loop _ _ _ _ _); [discriminate |].
      intros [= _ <-]. split; [done |]. by rewrite app_nil_r.
  - intros [= <- <-]. simpl. by rewrite app_nil_r.
Qed.

Lemma account_balance ops :
  forall map map' x,
    map_inv map ->
    free_item map = true ->
    Forall with_out ops ->
    account map ops = Ok (map', x) ->
    map_inv map' /\
    free_item map' = true /\
    (hashmap_iterate map).*2 ++ stored x
    ≡ₚ freed x ++ removed x ++ (hashmap_iterate map').*2.
Proof.
  induction ops as [|o ops IH]; intros map map' x Hinv Hfree Hout; simpl.
  - intros [= <- <-]. simpl. by rewrite app_nil_r.
  - apply Forall_cons in Hout as [Ho Hout].
    destruct (account_op map o) as [[map1 x1]| |] eqn:Hop;
      simpl; try discriminate.
    destruct (account map1 ops) as [[map2 x2]| |] eqn:Hrest;
      simpl; try discriminate.
    intros [= <- <-].
    destruct (account_op_balance _ _ _ _ Hinv Hfree Ho Hop)
      as (Hinv1 & Hfree1 & Hperm1).
    destruct (IH _ _ _ Hinv1 Hfree1 Hout Hrest) as (Hinv2 & Hfree2 & Hperm2).
    split; [done |]. split; [done |]. simpl.
    rewrite app_assoc, Hperm1, <- !app_assoc. f_equiv.
    rewrite Hperm2, !app_assoc. do 2 f_equiv.
    apply Permutation_app_comm.
Qed.

(** The script of [account] is a script of [run]. *)
Lemma account_run ops :
  forall map map' x, account map ops = Ok (map', x) -> run map ops = Ok map'.
Proof.
  induction ops as [|o ops IH]; intros map map' x; simpl.
  - by intros [= <- _].
  - assert (forall map1 x1,
              account_op map o = Ok (map1, x1) -> apply_op map o = Ok map1)
      as Hop.
    { intros map1 x1. destruct o as [a k d | k | k out |]; simpl.
      - destruct (hashmap_set a map k d) as [[[r m] fr]| |]; simpl;
          try discriminate. by intros [= <- _].
      - destruct (hashmap_get map k); simpl; try discriminate.
        by intros [= <- _].
      - destruct (hashmap_delete map k out) as [[[r o] m]| |]; simpl;
          try discriminate. by intros [= <- _].
      - by intros [= <- _]. }
    destruct (account_op map o) as [[map1 x1]| |]; simpl; try discriminate.
    rewrite (Hop map1 x1 eq_refl). simpl.
    destruct (account map1 ops) as [[map2 x2]| |] eqn:Hrest; simpl;
      try discriminate.
    intros [= <- _]. by eapply IH.
Qed.

(** X11. A container with a [free_item] callback, from [hashmap_create] to
    [hashmap_destroy]: every pointer that a successful [hashmap_set] has
    stored is passed to [free_item] exactly once, by a later [hashmap_set] or
    by [hashmap_destroy], or has been written to the out-parameter of a
    successful [hashmap_delete], and [free_item] is called on nothing else.
    The script can be any sequence of operations in which the deletions have
    an out-parameter. *)
Theorem script_account cap hash map0 ops map x :
  hashmap_create true cap hash true = Ok (Some map0) ->
  Forall with_out ops ->
  account map0 ops = Ok (map, x) ->
  run map0 ops = Ok map /\
  stored x ≡ₚ (freed x ++ hashmap_destroy map) ++ removed x.
Proof.
  intros Hcreate Hout Hacc. split; [by eapply account_run |].
  pose proof (hashmap_create_inv _ _ _ _ Hcreate) as [Hinv _].
  assert (free_item map0 = true) as Hfree.
  { revert Hcreate. unfold hashmap_create.
    destruct (cap =? 0); [discriminate |]. by intros [= <-]. }
  assert (hashmap_iterate map0 = []) as Hempty.
  { rewrite hashmap_iterate_entries by by apply map_inv_wf.
    revert Hcreate. unfold hashmap_create.
    destruct (cap =? 0); [discriminate |]. intros [= <-]. simpl.
    clear. induction cap as [|cap IH]; [done |]. exact IH. }
  destruct (account_balance _ _ _ _ Hinv Hfree Hout Hacc)
    as (Hinv' & Hfree' & Hperm).
  rewrite Hempty in Hperm. simpl in Hperm.
  rewrite hashmap_destroy_frees_entries_aux by by apply map_inv_wf.
  rewrite <- hashmap_iterate_entries by by apply map_inv_wf.
  rewrite Hfree', Hperm, <- !app_assoc. f_equiv.
  apply Permutation_app_comm.
Qed.

Lemma script_account_witness :
  let ops := [OpSet all_ok "af"%string 1%N; OpSet all_ok "an"%string 2%N;
              OpSet all_ok "af"%string 3%N; OpGet "an"%string;
              OpDelete "af"%string (Some NULL); OpIterate] in
  let x := {| stored := [1%N; 2%N; 3%N];
              freed := [1%N];
              removed := [3%N] |} in
  exists map,
    account one_bucket ops = Ok (map, x) /\
    hashmap_destroy map = [2%N] /\
    run one_bucket ops = Ok map /\
    stored x ≡ₚ (freed x ++ hashmap_destroy map) ++ removed x.
Proof.
  intros ops x. exists (exec one_bucket ops).
  assert (account one_bucket ops = Ok (exec one_bucket ops, x)) as Hacc
    by (vm_compute; reflexivity).
  split; [exact Hacc |]. split; [vm_compute; reflexivity |].
  apply (script_account 1 collision_hash one_bucket ops _ x
           one_bucket_created); [|exact Hacc].
  repeat constructor.
Defined.

(** ** Calls of [hashmap_set] that return true *)

Lemma _grow_node_if_needed_true a map k :
  let node := table map !!! bucket_index map k in
  count node + 1 < capacity node \/ succeeds a ->
  (_grow_node_if_needed a map k).1 = true.
Proof.
  intros node Hok. unfold _grow_node_if_needed. fold node.
  destruct (count node + 1 <? capacity node) eqn:Hroom; [done |].
  nat_tests. destruct Hok as [? | [Htmp Hitems]]; [lia |].
  rewrite Htmp, Hitems.
  destruct (0 <? capacity node); [|done].
  by destruct (_tmp_capacity map <? capacity node).
Qed.

Lemma hashmap_set_true a map k d ukey :
  let node := table map !!! bucket_index map ukey in
  map_inv map ->
  _compute_key map k = Ok ukey ->
  count node + 1 < capacity node \/ succeeds a ->
  exists map' freed, hashmap_set a map k d = Ok (true, map', freed).
Proof.
  intros node Hinv Hkey Hok.
  destruct (hashmap_set a map k d) as [[[r map'] freed]| |] eqn:Hset.
  - destruct r; [by eauto |].
    pose proof (hashmap_set_false_inv _ _ _ _ _ _ _ Hinv Hkey Hset) as Hgrow.
    by rewrite (_grow_node_if_needed_true a map ukey Hok) in Hgrow.
  - unfold hashmap_set in Hset. rewrite Hkey in Hset. simpl in Hset.
    destruct (_grow_node_if_needed a map ukey) as [[] map1];
      simpl in Hset; [|done].
    by destruct (_get_item map1 ukey true) as [b [p|]].
  - unfold hashmap_set in Hset. rewrite Hkey in Hset. simpl in Hset.
    destruct (_grow_node_if_needed a map ukey) as [[] map1];
      simpl in Hset; [|done].
    by destruct (_get_item map1 ukey true) as [b [p|]].
Qed.

Lemma run_app map ops ops' :
  run map (ops ++ ops') = (map1 ← run map ops; run map1 ops').
Proof.
  revert map. induction ops as [|o ops IH]; intros map; simpl; [done |].
  destruct (apply_op map o) as [map1| |]; simpl; [apply IH | done..].
Qed.

Lemma reachable_apply_op map o map' :
  reachable map -> apply_op map o = Ok map' -> reachable map'.
Proof.
  intros (cap & hash & free & map0 & ops & Hcreate & Hrun) Hop.
  exists cap, hash, free, map0, (ops ++ [o]). split; [done |].
  rewrite run_app, Hrun. simpl. by rewrite Hop.
Qed.

(** X12. In a container reached from [hashmap_create], [hashmap_set] returns
    true whenever the bucket of the key has room for one more entry or the
    allocations of the call succeed: the scan for a slot cannot fail, and the
    only way to false is a failed allocation. After the call the bucket still
    has a slot without data. *)
Theorem hashmap_set_succeeds a map k d ukey :
  let node := table map !!! bucket_index map ukey in
  reachable map ->
  _compute_key map k = Ok ukey ->
  count node + 1 < capacity node \/ succeeds a ->
  exists map' freed,
    hashmap_set a map k d = Ok (true, map', freed) /\
    reachable map' /\
    let node' := table map' !!! bucket_index map ukey in
    occupancy (items node') <= count node' < capacity node'.
Proof.
  intros node Hreach Hkey Hok.
  pose proof (reachable_inv _ Hreach) as Hinv.
  destruct (hashmap_set_true a map k d ukey Hinv Hkey Hok)
    as (map' & freed & Hset).
  exists map', freed. split; [done |]. split.
  - apply (reachable_apply_op map (OpSet a k d)); [done |].
    simpl. by rewrite Hset.
  - pose proof (hashmap_set_inv _ _ _ _ _ _ _ Hinv Hset) as [Hinv' _].
    pose proof (hashmap_set_fields _ _ _ _ _ _ _ Hset) as (Htc & _).
    pose proof (hashmap_set_true_allocated _ _ _ _ _ _ _
                  (map_inv_wf _ Hinv) Hkey Hset) as Hcap.
    destruct (map_inv_bucket map' (bucket_index map ukey) Hinv')
      as (_ & Hocc & [[Hzero _] | [Hlt _]]); simpl; try lia.
    rewrite Htc. apply bucket_index_lt, Hinv.
Qed.

Lemma hashmap_set_succeeds_witness :
  let map := exec one_bucket [OpSet all_ok "aa"%string 1%N;
                              OpSet all_ok "ab"%string 2%N] in
  let ukey := {| pkey := 97; skey := 99 |} in
  exists map' freed,
    hashmap_set no_memory map "ac"%string 3%N = Ok (true, map', freed) /\
    reachable map' /\
    let node' := table map' !!! bucket_index map ukey in
    occupancy (items node') <= count node' < capacity node'.
Proof.
  intros map ukey.
  apply (hashmap_set_succeeds no_memory map "ac"%string 3%N ukey).
  - exists 1, collision_hash, true, one_bucket,
      [OpSet all_ok "aa"%string 1%N; OpSet all_ok "ab"%string 2%N].
    split; vm_compute; reflexivity.
  - vm_compute. reflexivity.
  - left. vm_compute. lia.
Defined.

(** ** Any number of insertions into one bucket *)

Lemma capacity_after_bounds n :
  0 < n ->
  n < capacity_after n <= Nat.max HASH_MAP_BUCKET_SIZE (2 * n).
Proof.
  induction n as [|n IH]; [lia |]. intros _.
  rewrite capacity_after_step. destruct n as [|n].
  - simpl. unfold HASH_MAP_BUCKET_SIZE. lia.
  - specialize (IH ltac:(lia)).
    destruct (S n + 1 <? capacity_after (S n)) eqn:Hroom; nat_tests; [lia |].
    destruct (capacity_after (S n) =? 0) eqn:Hzero; nat_tests; lia.
Qed.

Lemma set_all_is_Some calls :
  forall map,
    map_inv map ->
    (forall c, c ∈ calls -> c.1.2 <> EmptyString /\ succeeds c.1.1) ->
    is_Some (set_all map calls).
Proof.
  induction calls as [|[[a k] d] calls IH]; intros map Hinv Hok; simpl;
    [done |].
  destruct (Hok (a, k, d)) as [Hk Ha]; [by left |]. simpl in Hk, Ha.
  assert (_compute_key map k = Ok (split_hash (hash_function map k)))
    as Hkey by (unfold _compute_key; by destruct k).
  destruct (hashmap_set_true a map k d _ Hinv Hkey (or_intror Ha))
    as (map' & freed & Hset).
  rewrite Hset. apply IH.
  - by apply hashmap_set_inv in Hset as [? _].
  - intros c Hc. apply Hok. by right.
Qed.

(** X13. Insertions of any number [n] of keys with pairwise distinct two-part
    keys into a bucket that is not allocated yet. If every call returns true,
    the bucket counts [n] entries, its capacity is the one that the doubling
    rule gives, more than [n] and at most [8] or [2 * n], and [hashmap_get]
    returns for each key the data of its call. The calls do return true when
    their allocations succeed. *)
Theorem set_all_distinct_keys map calls b :
  reachable map ->
  capacity (table map !!! b) = 0 ->
  (forall c, c ∈ calls ->
     bucket_index map (call_key (hash_function map) c) = b) ->
  NoDup (call_key (hash_function map) <$> calls) ->
  ((forall c, c ∈ calls -> c.1.2 <> EmptyString /\ succeeds c.1.1) ->
   is_Some (set_all map calls)) /\
  (forall map',
     set_all map calls = Some map' ->
     let n := length calls in
     count (table map' !!! b) = n /\
     capacity (table map' !!! b) = capacity_after n /\
     (0 < n -> n < capacity_after n <= Nat.max HASH_MAP_BUCKET_SIZE (2 * n)) /\
     forall c, c ∈ calls -> hashmap_get map' c.1.2 = Ok c.2).
Proof.
  intros Hinv%reachable_inv Hzero Hb Hnodup.
  split; [by apply set_all_is_Some |].
  intros map' Hset n.
  destruct (decide (calls = [])) as [-> | Hne].
  { simpl in Hset. injection Hset as <-. subst n. simpl.
    split_and!; [|done | lia | by intros c ?%elem_of_nil].
    destruct (decide (b < table_capacity map)) as [Hblt | Hge].
    - destruct (map_inv_bucket map b Hinv Hblt) as (_ & _ & [[_ ?] | [? _]]);
        [done | lia].
    - destruct Hinv as (_ & Hlen & _).
      rewrite list_lookup_total_alt, lookup_ge_None_2 by lia. done. }
  assert (b < table_capacity map) as Hblt.
  { destruct calls as [|c calls]; [done |].
    rewrite <- (Hb c) by by left. apply bucket_index_lt, Hinv. }
  assert (filled (hash_function map) (table_capacity map) map b []) as Hfilled.
  { pose proof (map_inv_bucket map b Hinv Hblt) as (Hwfb & Hshape).
    unfold wf_bucket in Hwfb. rewrite Hzero in Hwfb.
    apply length_zero_iff_nil in Hwfb.
    split; [by apply map_inv_wf |]. split; [done |]. split; [done |].
    rewrite Hwfb, Hzero. split; [apply (stores_replicate 0) |].
    split; [simpl; lia |]. split; [done |]. by intros c ?%elem_of_nil. }
  pose proof (set_all_filled _ _ b calls map [] map' Hfilled Hb Hnodup Hset)
    as Hfilled'.
  simpl in Hfilled'.
  pose proof Hfilled' as (_ & _ & Htc & _ & Hcount & Hcap & _).
  split_and!; [done | done | apply capacity_after_bounds |].
  intros c Hc. eapply filled_get; [done | done | | done].
  unfold bucket_index. rewrite Htc. by apply Hb.
Qed.

Lemma set_all_distinct_keys_witness :
  exists map',
    set_all one_bucket nine_calls = Some map' /\
    count (table map' !!! 0) = 9 /\
    capacity (table map' !!! 0) = capacity_after 9 /\
    (0 < 9 -> 9 < capacity_after 9 <= Nat.max HASH_MAP_BUCKET_SIZE (2 * 9)) /\
    forall c, c ∈ nine_calls -> hashmap_get map' c.1.2 = Ok c.2.
Proof.
  destruct (set_all one_bucket nine_calls) as [map'|] eqn:Hset;
    [|vm_compute in Hset; discriminate].
  exists map'. split; [reflexivity |].
  apply (proj2 (set_all_distinct_keys one_bucket nine_calls 0
                  (reachable_created 1 collision_hash true one_bucket
                     one_bucket_created)
                  eq_refl
                  ltac:(intros c Hc; unfold bucket_index; simpl;
                        by rewrite N.mod_1_r)
                  ltac:(refine (bool_decide_unpack _ _); vm_compute;
                        exact I))).
  exact Hset.
Defined.

(** ** Overwriting *)





(** ** Other keys of the same bucket *)

Lemma hashmap_get_Ok map k ukey :
  _compute_key map k = Ok ukey -> exists d, hashmap_get map k = Ok d.
Proof.
  intros Hkey. unfold hashmap_get. rewrite Hkey. simpl.
  destruct (_get_item _ _ _) as [b [p|]]; eauto.
Qed.

(** X15. [hashmap_set] of one key leaves the result of [hashmap_get] for a key
    with another two-part key as it is, in the same bucket as well, also when
    the call reallocates the bucket and moves its entries, provided the
    entries of the other key, if it has more than one, have the same data. *)
Theorem hashmap_set_other_keys a map k d ukey r map' freed k2 ukey2 :
  reachable map ->
  _compute_key map k = Ok ukey ->
  _compute_key map k2 = Ok ukey2 ->
  ukey2 <> ukey ->
  (forall d1 d2,
     (ukey2, d1) ∈ hashmap_iterate map ->
     (ukey2, d2) ∈ hashmap_iterate map -> d1 = d2) ->
  hashmap_set a map k d = Ok (r, map', freed) ->
  hashmap_get map' k2 = hashmap_get map k2.
Proof.
  intros Hreach Hkey Hkey2 Hne Huniq Hset.
  pose proof (reachable_inv _ Hreach) as Hinv.
  assert (reachable map') as Hreach'.
  { apply (reachable_apply_op map (OpSet a k d)); [done |].
    simpl. by rewrite Hset. }
  pose proof (reachable_inv _ Hreach') as Hinv'.
  pose proof (hashmap_set_fields _ _ _ _ _ _ _ Hset) as (Htc & Hhash & _).
  assert (_compute_key map' k2 = Ok ukey2) as Hkey2'
    by (by rewrite (_compute_key_ext map)).
  assert (forall x, (ukey2, x) ∈ hashmap_iterate map' <->
                    (ukey2, x) ∈ hashmap_iterate map) as Hmem.
  { destruct r.
    - destruct (hashmap_set_bucket _ _ _ _ _ _ _ Hinv Hkey Hset)
        as (_ & Hlen & Hothers & old & Hperm & Hold).
      assert (hashmap_iterate map' ++ old
              ≡ₚ entries [{| key := ukey; data := d |}]
                 ++ hashmap_iterate map) as Hiter.
      { rewrite !hashmap_iterate_entries by by apply map_inv_wf.
        apply (flat_map_change_one _ _ _ (bucket_index map ukey));
          try done.
        destruct Hinv as (? & -> & _). by apply bucket_index_lt. }
      intros x. split; intros Hx.
      + assert ((ukey2, x) ∈ entries [{| key := ukey; data := d |}]
                             ++ hashmap_iterate map)
          as [Hnew | ?]%elem_of_app; [|exfalso|done].
        { rewrite <- Hiter. apply elem_of_app. by left. }
        apply elem_of_entries in Hnew as ([|p] & Hp & Hit & _);
          simpl in Hp; [|lia].
        simpl in Hit. by injection Hit as ->.
      + assert ((ukey2, x) ∈ hashmap_iterate map' ++ old)
          as [? | Hold']%elem_of_app; [|done|exfalso].
        { rewrite Hiter. apply elem_of_app. by right. }
        destruct Hold as [[-> _] | (d0 & _ & -> & _)].
        * by apply elem_of_nil in Hold'.
        * by apply list_elem_of_singleton in Hold' as [= -> _].
    - destruct (hashmap_set_false_table _ _ _ _ _ _ Hinv Hset)
        as (Htable & _).
      intros x. unfold hashmap_iterate. by rewrite Htable, Htc. }
  destruct (hashmap_get_visited map k2 ukey2) as [Hnull Hdata];
    [by apply map_inv_wf | by apply reachable_homed | done |].
  destruct (hashmap_get_visited map' k2 ukey2) as [Hnull' Hdata'];
    [by apply map_inv_wf | by apply reachable_homed | done |].
  destruct (hashmap_get_Ok map k2 ukey2 Hkey2) as [d2 Hget].
  destruct (hashmap_get_Ok map' k2 ukey2 Hkey2') as [d2' Hget'].
  rewrite Hget, Hget'. f_equal.
  destruct (decide (d2 = NULL)) as [-> | Hd2].
  - rewrite (proj2 Hnull') in Hget'; [by injection Hget' |].
    intros x ?%Hmem. by apply (proj1 Hnull Hget x).
  - destruct (decide (d2' = NULL)) as [-> | Hd2'].
    + destruct (proj1 Hnull' Hget' d2). apply Hmem. by apply Hdata.
    + apply Huniq; [apply Hmem|]; auto.
Qed.

Lemma hashmap_set_other_keys_witness :
  let map := exec one_bucket [OpSet all_ok "aa"%string 1%N;
                              OpSet all_ok "ab"%string 2%N;
                              OpSet all_ok "ac"%string 3%N;
                              OpSet all_ok "ad"%string 4%N;
                              OpSet all_ok "ae"%string 5%N;
                              OpSet all_ok "af"%string 6%N;
                              OpSet all_ok "ag"%string 7%N] in
  let map' := exec map [OpSet all_ok "ah"%string 8%N] in
  hashmap_set all_ok map "ah"%string 8%N = Ok (true, map', []) /\
  capacity (table map !!! 0) = 8 /\
  capacity (table map' !!! 0) = 16 /\
  hashmap_get map' "ac"%string = hashmap_get map "ac"%string.
Proof.
  intros map map'.
  assert (hashmap_set all_ok map "ah"%string 8%N = Ok (true, map', []))
    as Hset by (vm_compute; reflexivity).
  split; [exact Hset |]. split; [vm_compute; reflexivity |].
  split; [vm_compute; reflexivity |].
  apply (hashmap_set_other_keys all_ok map "ah"%string 8%N
           {| pkey := 97; skey := 104 |} true map' [] "ac"%string
           {| pkey := 97; skey := 99 |}).
  - exists 1, collision_hash, true, one_bucket,
      [OpSet all_ok "aa"%string 1%N; OpSet all_ok "ab"%string 2%N;
       OpSet all_ok "ac"%string 3%N; OpSet all_ok "ad"%string 4%N;
       OpSet all_ok "ae"%string 5%N; OpSet all_ok "af"%string 6%N;
       OpSet all_ok "ag"%string 7%N].
    split; vm_compute; reflexivity.
  - vm_compute. reflexivity.
  - vm_compute. reflexivity.
  - discriminate.
  - assert (Forall (fun e => e.1 = {| pkey := 97; skey := 99 |} -> e.2 = 3%N)
              (hashmap_iterate map)) as Hthree.
    { refine (bool_decide_unpack _ _). vm_compute. exact I. }
    rewrite Forall_forall in Hthree. intros d1 d2 H1 H2.
    pose proof (Hthree _ H1 eq_refl) as E1.
    pose proof (Hthree _ H2 eq_refl) as E2. simpl in E1, E2. congruence.
  - exact Hset.
Defined.

(** ** Keys with the same hash value *)

Lemma hashmap_get_after_set_key a map k d ukey map' freed k2 :
  wf_map map ->
  d <> NULL ->
  _compute_key map k = Ok ukey ->
  hashmap_set a map k d = Ok (true, map', freed) ->
  _compute_key map k2 = Ok ukey ->
  hashmap_get map' k2 = Ok d.
Proof.
  intros Hwf Hd Hkey. unfold hashmap_set. rewrite Hkey. simpl.
  pose proof (_grow_node_if_needed_wf a map ukey Hwf) as Hwf1.
  pose proof (_grow_node_if_needed_fields a map ukey) as (Hcap & Hhash & _).
  destruct (_grow_node_if_needed a map ukey) as [grown map1].
  cbn [fst snd] in *.
  destruct grown; simpl; [|discriminate].
  destruct (_get_item map1 ukey true) as [b [p|]] eqn:Hitem; [|discriminate].
  intros [= <- _] Hkey2.
  apply _get_item_Some in Hitem as (-> & Hpos & Hp & Hloop).
  set (b := bucket_index map1 ukey) in *.
  assert (b < length (table map1)) as Hb.
  { destruct Hwf1 as (? & -> & _). by apply bucket_index_lt. }
  assert (wf_bucket (table map1 !!! b)) as Hnode.
  { destruct Hwf1 as (_ & _ & Hall). by apply Forall_lookup_total_1. }
  unfold hashmap_get.
  rewrite (_compute_key_ext map), Hkey2 by (simpl; congruence). simpl.
  unfold _get_item. rewrite bucket_index_set_table. fold b. simpl.
  rewrite list_lookup_total_insert_eq by done. simpl.
  destruct (capacity (table map1 !!! b) =? 0) eqn:Hzero; [nat_tests; lia |].
  erewrite _get_item_loop_after_store by done.
  rewrite list_lookup_total_insert_eq by done. simpl.
  rewrite list_lookup_total_insert_eq; [done |].
  unfold wf_bucket in Hnode. lia.
Qed.

(** X16. The container keeps the two-part key of an entry, not its string:
    after a successful [hashmap_set] of a key, [hashmap_get] returns the data
    for every other string whose hash value is the same modulo [2^64], and
    [hashmap_set] and [hashmap_delete] with such a string do what they do with
    the key itself. *)
Theorem equal_hashes_alias a map k1 k2 d map' freed :
  wf_map map ->
  k2 <> EmptyString ->
  (hash_function map k1 mod 2 ^ 64 = hash_function map k2 mod 2 ^ 64)%N ->
  d <> NULL ->
  hashmap_set a map k1 d = Ok (true, map', freed) ->
  hashmap_get map' k2 = Ok d /\
  (forall a' d', hashmap_set a' map' k2 d' = hashmap_set a' map' k1 d') /\
  (forall out, hashmap_delete map' k2 out = hashmap_delete map' k1 out).
Proof.
  intros Hwf Hk2 Hhash Hd Hset.
  destruct (_compute_key map k1) as [ukey| |] eqn:Hkey1;
    [|unfold hashmap_set in Hset; rewrite Hkey1 in Hset; discriminate..].
  pose proof (_compute_key_Ok _ _ _ Hkey1) as [Hk1 ->].
  assert (_compute_key map k2 = Ok (split_hash (hash_function map k1)))
    as Hkey2.
  { unfold _compute_key. rewrite (split_hash_congr _ _ Hhash).
    by destruct k2. }
  pose proof (hashmap_set_fields _ _ _ _ _ _ _ Hset) as (_ & Hhash' & _).
  assert (_compute_key map' k2 = _compute_key map' k1) as Hsame.
  { rewrite !(_compute_key_ext map map') by done. by rewrite Hkey1, Hkey2. }
  split.
  { exact (hashmap_get_after_set_key a map k1 d _ map' freed k2 Hwf Hd Hkey1
             Hset Hkey2). }
  split; [intros a' d'; unfold hashmap_set | intros out; unfold hashmap_delete];
    by rewrite Hsame.
Qed.

Lemma equal_hashes_alias_witness :
  let map' := exec one_bucket [OpSet all_ok "abc"%string 7%N] in
  collision_hash "abc"%string = collision_hash "acb"%string /\
  hashmap_set all_ok one_bucket "abc"%string 7%N = Ok (true, map', []) /\
  hashmap_get map' "acb"%string = Ok 7%N.
Proof.
  intros map'.
  assert (hashmap_set all_ok one_bucket "abc"%string 7%N = Ok (true, map', []))
    as Hset by (vm_compute; reflexivity).
  split; [vm_compute; reflexivity |]. split; [exact Hset |].
  apply (equal_hashes_alias all_ok one_bucket "abc"%string "acb"%string
           7%N map' []).
  - apply wf_mapb_true. vm_compute. reflexivity.
  - discriminate.
  - vm_compute. reflexivity.
  - discriminate.
  - exact Hset.
Defined.

(** ** A new container *)



(** ** Counts and capacities *)

(** A successful [hashmap_set], step by step: the table that
    [_grow_node_if_needed] leaves, the slot that [_get_item] selects in it,
    and the store into that slot. *)
Lemma hashmap_set_true_steps a map k d ukey map' freed :
  let b := bucket_index map ukey in
  wf_map map ->
  _compute_key map k = Ok ukey ->
  hashmap_set a map k d = Ok (true, map', freed) ->
  exists t1 p,
    grow_result map b true t1 /\
    let node1 := t1 !!! b in
    p < capacity node1 /\
    table map'
    = <[b := {| items := <[p := {| key := ukey; data := d |}]> (items node1);
                count := if is_null (data (items node1 !!! p))
                         then count node1 + 1 else count node1;
                capacity := capacity node1 |}]> t1.
Proof.
  intros b Hwf Hkey Hset.
  unfold hashmap_set in Hset. rewrite Hkey in Hset. simpl in Hset.
  pose proof (_grow_node_if_needed_result a map ukey Hwf) as Hres.
  pose proof (_grow_node_if_needed_fields a map ukey) as (Htc & _).
  destruct (_grow_node_if_needed a map ukey) as [grown map1].
  cbn [fst snd] in *. fold b in Hres.
  destruct grown; simpl in Hset; [|discriminate].
  destruct (_get_item map1 ukey true) as [b1 [p|]] eqn:Hitem;
    [|discriminate].
  injection Hset as <- _.
  apply _get_item_Some in Hitem as (-> & _ & Hp & _).
  assert (bucket_index map1 ukey = b) as Hb1
    by (unfold b, bucket_index; by rewrite Htc).
  rewrite Hb1 in *. by exists (table map1), p.
Qed.

Lemma Forall_grow_result (P : HashMapBucket -> Prop) map b grown t :
  b < length (table map) ->
  Forall P (table map) ->
  grow_result map b grown t ->
  (capacity (table map !!! b) = 0 ->
   P {| items := replicate HASH_MAP_BUCKET_SIZE unused_item;
        count := count (table map !!! b);
        capacity := HASH_MAP_BUCKET_SIZE |}) ->
  (0 < capacity (table map !!! b) <= count (table map !!! b) + 1 ->
   P {| items := foldl (reinsert (capacity (table map !!! b) * 2))
                   (replicate (capacity (table map !!! b) * 2) unused_item)
                   (items (table map !!! b));
        count := count (table map !!! b);
        capacity := capacity (table map !!! b) * 2 |}) ->
  length t = length (table map) /\ Forall P t.
Proof.
  intros Hb Hall Hres Hfirst Hdouble.
  destruct (grow_result_cases _ _ _ _ Hres)
    as [(_ & _ & ->) | [(_ & _ & ->) | [(_ & Hzero & ->) | (_ & Hcap & ->)]]];
    [done | done | |]; rewrite length_insert;
    (split; [done |]); apply Forall_insert; auto.
Qed.

Lemma occupancy_foldl_reinsert_eq cap todo :
  occupancy todo < cap ->
  occupancy (foldl (reinsert cap) (replicate cap unused_item) todo)
  = occupancy todo.
Proof.
  intros Hocc. rewrite <- !length_entries.
  rewrite entries_foldl_reinsert.
  - by rewrite entries_replicate_unused.
  - by rewrite length_replicate.
  - rewrite occupancy_replicate_unused. lia.
Qed.

Lemma hashmap_set_space_bound a map k d r map' freed :
  map_inv map ->
  Forall space_bound (table map) ->
  hashmap_set a map k d = Ok (r, map', freed) ->
  Forall space_bound (table map').
Proof.
  intros Hinv Hall Hset. destruct r.
  - destruct (_compute_key map k) as [ukey| |] eqn:Hkey;
      [|unfold hashmap_set in Hset; rewrite Hkey in Hset; discriminate..].
    pose proof (map_inv_wf _ Hinv) as Hwf.
    assert (bucket_index map ukey < length (table map)) as Hb.
    { destruct Hwf as (? & -> & _). by apply bucket_index_lt. }
    destruct (hashmap_set_true_steps _ _ _ _ _ _ _ Hwf Hkey Hset)
      as (t1 & p & Hres & _ & ->).
    destruct (Forall_grow_result space_bound _ _ _ _ Hb Hall Hres)
      as [Hlen Hall1].
    + intros _. unfold space_bound. simpl. lia.
    + intros Hcap. unfold space_bound. cbn [capacity count]. lia.
    + apply Forall_insert; [done |].
      pose proof (Forall_lookup_total_1 _ _ (bucket_index map ukey) Hall1
                    ltac:(lia)) as Hnode1.
      unfold space_bound in *. cbn [capacity count].
      destruct (is_null _); lia.
  - by destruct (hashmap_set_false_table _ _ _ _ _ _ Hinv Hset) as (-> & _).
Qed.

Lemma hashmap_delete_space_bound map k out r out' map' :
  Forall space_bound (table map) ->
  hashmap_delete map k out = Ok (r, out', map') ->
  Forall space_bound (table map').
Proof.
  intros Hall. unfold hashmap_delete.
  destruct (_compute_key map k) as [ukey| |]; simpl; try discriminate.
  set (b := bucket_index map ukey).
  destruct (capacity (table map !!! b) =? 0); [discriminate |].
  destruct (hashmap_delete_loop _ _ _ _ _) as [p|];
    intros [= _ _ <-]; [|done].
  simpl. destruct (decide (b < length (table map))) as [Hb | Hb].
  - apply Forall_insert; [done |].
    by pose proof (Forall_lookup_total_1 _ _ b Hall Hb).
  - by rewrite list_insert_ge by lia.
Qed.

Lemma hashmap_set_exact_count a map k d r map' freed :
  map_inv map ->
  d <> NULL ->
  Forall exact_count (table map) ->
  hashmap_set a map k d = Ok (r, map', freed) ->
  Forall exact_count (table map').
Proof.
  intros Hinv Hd Hall Hset. destruct r.
  - destruct (_compute_key map k) as [ukey| |] eqn:Hkey;
      [|unfold hashmap_set in Hset; rewrite Hkey in Hset; discriminate..].
    pose proof (map_inv_wf _ Hinv) as Hwf.
    set (b := bucket_index map ukey).
    assert (b < length (table map)) as Hb.
    { destruct Hwf as (? & -> & _). by apply bucket_index_lt. }
    pose proof (Forall_lookup_total_1 _ _ b Hall Hb) as Hnode.
    assert (bucket_inv (table map !!! b)) as (Hwfb & Hocc & Hshape).
    { apply map_inv_bucket; [done |]. by destruct Hinv as (_ & <- & _). }
    unfold exact_count, wf_bucket in Hnode, Hwfb.
    destruct (hashmap_set_true_steps _ _ _ _ _ _ _ Hwf Hkey Hset)
      as (t1 & p & Hres & Hp & ->). fold b in Hres, Hp |- *.
    assert (length (items (t1 !!! b)) = capacity (t1 !!! b)) as Hwf1.
    { destruct (Forall_grow_result wf_bucket map b true t1 Hb
                  (proj2 (proj2 Hwf)) Hres) as [Hlen1 Hall1].
      - intros _. unfold wf_bucket. cbn [items capacity].
        by rewrite length_replicate.
      - intros _. unfold wf_bucket. cbn [items capacity].
        by rewrite length_foldl_reinsert, length_replicate.
      - apply (Forall_lookup_total_1 _ _ b Hall1). lia. }
    destruct (Forall_grow_result exact_count _ _ _ _ Hb Hall Hres)
      as [Hlen Hall1].
    + intros Hzero. unfold exact_count. cbn [count items].
      rewrite occupancy_replicate_unused, Hnode.
      rewrite Hzero in Hwfb. apply length_zero_iff_nil in Hwfb.
      by rewrite Hwfb.
    + intros Hcap. unfold exact_count. cbn [count items].
      rewrite occupancy_foldl_reinsert_eq; [done |]. lia.
    + apply Forall_insert; [done |].
      pose proof (Forall_lookup_total_1 _ _ b Hall1) as Hnode1.
      unfold exact_count in *. cbn [count items].
      specialize (Hnode1 ltac:(lia)).
      pose proof (occupancy_insert (items (t1 !!! b)) p
                    {| key := ukey; data := d |} ltac:(lia)) as Hins.
      assert (occupied {| key := ukey; data := d |} = true) as Hnew
        by by apply occupied_true.
      rewrite Hnew in Hins. unfold occupied in Hins.
      destruct (is_null (data (items (t1 !!! b) !!! p))); simpl in Hins; lia.
  - by destruct (hashmap_set_false_table _ _ _ _ _ _ Hinv Hset) as (-> & _).
Qed.

Lemma apply_op_space_bound map o map' :
  map_inv map ->
  Forall space_bound (table map) ->
  apply_op map o = Ok map' ->
  Forall space_bound (table map').
Proof.
  intros Hinv Hall. destruct o as [a k d | k | k out |]; simpl.
  - destruct (hashmap_set a map k d) as [[[r m] fr]| |] eqn:Hset;
      simpl; try discriminate.
    intros [= <-]. by eapply hashmap_set_space_bound.
  - destruct (hashmap_get map k); simpl; try discriminate. by intros [= <-].
  - destruct (hashmap_delete map k out) as [[[r o] m]| |] eqn:Hdel;
      simpl; try discriminate.
    intros [= <-]. by eapply hashmap_delete_space_bound.
  - by intros [= <-].
Qed.

Lemma run_space_bound map ops map' :
  map_inv map ->
  Forall space_bound (table map) ->
  run map ops = Ok map' ->
  Forall space_bound (table map').
Proof.
  revert map. induction ops as [|o ops IH]; intros map Hinv Hall; simpl.
  - by intros [= <-].
  - destruct (apply_op map o) as [map1| |] eqn:Hop; simpl; try discriminate.
    apply IH; [by eapply apply_op_inv | by eapply apply_op_space_bound].
Qed.

Lemma apply_op_exact_count map o map' :
  map_inv map ->
  only_stores o ->
  Forall exact_count (table map) ->
  apply_op map o = Ok map' ->
  Forall exact_count (table map').
Proof.
  intros Hinv Ho Hall. destruct o as [a k d | k | k out |]; simpl in *.
  - destruct (hashmap_set a map k d) as [[[r m] fr]| |] eqn:Hset;
      simpl; try discriminate.
    intros [= <-]. by eapply hashmap_set_exact_count.
  - destruct (hashmap_get map k); simpl; try discriminate. by intros [= <-].
  - done.
  - by intros [= <-].
Qed.

Lemma run_exact_count map ops map' :
  map_inv map ->
  Forall only_stores ops ->
  Forall exact_count (table map) ->
  run map ops = Ok map' ->
  Forall exact_count (table map').
Proof.
  revert map. induction ops as [|o ops IH]; intros map Hinv Hops Hall; simpl.
  - by intros [= <-].
  - apply Forall_cons in Hops as [Ho Hops].
    destruct (apply_op map o) as [map1| |] eqn:Hop; simpl; try discriminate.
    apply IH; [by eapply apply_op_inv | done |].
    by eapply apply_op_exact_count.
Qed.

(** X18. Counts and capacities of the buckets of a container reached from
    [hashmap_create].  A bucket never has more slots than the base size 8 or
    twice its count plus two, whatever the operations were.  As long as the
    script has no [hashmap_delete] and stores no NULL, the count of every
    bucket is the number of its entries, so that a bucket of [n] entries has
    at most [8] or [2 * n + 2] slots. *)
Theorem bucket_counts cap hash free map0 ops map :
  hashmap_create true cap hash free = Ok (Some map0) ->
  run map0 ops = Ok map ->
  (forall node, node ∈ table map ->
     capacity node <= Nat.max HASH_MAP_BUCKET_SIZE (2 * count node + 2)) /\
  (Forall only_stores ops ->
   forall node, node ∈ table map ->
     count node = length (entries (items node)) /\
     capacity node
     <= Nat.max HASH_MAP_BUCKET_SIZE (2 * length (entries (items node)) + 2)).
Proof.
  intros Hcreate Hrun.
  pose proof (hashmap_create_inv _ _ _ _ Hcreate) as [Hinv0 _].
  assert (Forall space_bound (table map0) /\ Forall exact_count (table map0))
    as [Hspace0 Hexact0].
  { revert Hcreate. unfold hashmap_create.
    destruct (cap =? 0); [discriminate |]. intros [= <-]. simpl.
    split; apply Forall_replicate; [unfold space_bound; simpl; lia | done]. }
  pose proof (run_space_bound _ _ _ Hinv0 Hspace0 Hrun) as Hspace.
  rewrite Forall_forall in Hspace. split; [exact Hspace |].
  intros Hops node Hnode.
  pose proof (run_exact_count _ _ _ Hinv0 Hops Hexact0 Hrun) as Hexact.
  rewrite Forall_forall in Hexact.
  specialize (Hspace node Hnode). specialize (Hexact node Hnode).
  unfold space_bound, exact_count in *. rewrite length_entries. lia.
Qed.

Lemma bucket_counts_witness :
  let ops := [OpSet all_ok "af"%string 1%N; OpSet all_ok "an"%string 2%N;
              OpGet "af"%string; OpSet all_ok "af"%string 3%N; OpIterate] in
  let map := exec one_bucket ops in
  run one_bucket ops = Ok map /\
  forall node, node ∈ table map ->
    count node = length (entries (items node)) /\
    capacity node
    <= Nat.max HASH_MAP_BUCKET_SIZE (2 * length (entries (items node)) + 2).
Proof.
  intros ops map.
  assert (run one_bucket ops = Ok map) as Hrun by (vm_compute; reflexivity).
  split; [exact Hrun |].
  apply (proj2 (bucket_counts 1 collision_hash true one_bucket ops map
                  one_bucket_created Hrun)).
  repeat constructor; discriminate.
Defined.

(** ** Deleting a key that is not stored *)

(** X19. [hashmap_delete] returns true only for a key that [hashmap_get]
    finds.  For a key that [hashmap_get] does not find, in a bucket that has
    been allocated, it returns false and changes neither the container nor
    the out-parameter. *)
Theorem hashmap_delete_missing_key map k ukey out :
  let node := table map !!! bucket_index map ukey in
  wf_map map ->
  _compute_key map k = Ok ukey ->
  (forall out' map',
     hashmap_delete map k out = Ok (true, out', map') ->
     exists d, d <> NULL /\ hashmap_get map k = Ok d) /\
  (hashmap_get map k = Ok NULL ->
   capacity node <> 0 ->
   hashmap_delete map k out = Ok (false, out, map)).
Proof.
  intros node Hwf Hkey.
  assert (length (items node) = capacity node) as Hnode.
  { apply wf_map_bucket; [done |]. apply bucket_index_lt, Hwf. }
  split.
  - intros out' map'. unfold hashmap_delete. rewrite Hkey. simpl.
    fold node.
    destruct (capacity node =? 0) eqn:Hzero; [discriminate |]. nat_tests.
    destruct (hashmap_delete_loop _ _ _ _ _) as [p|] eqn:Hloop;
      [|discriminate].
    intros _.
    assert (p < capacity node) as Hp
      by (eapply hashmap_delete_loop_lt; [lia | done]).
    apply hashmap_delete_loop_occupied in Hloop.
    destruct (hashmap_get_hit map k ukey p Hkey Hp Hloop)
      as (q & _ & [Hdata _]%occupied_by_true & Hget).
    eauto.
  - intros Hnull Hcap. apply (hashmap_delete_miss map k ukey out Hkey Hcap).
    fold node. intros q.
    destruct (occupied_by ukey (items node !!! q)) eqn:Hocc; [|done].
    assert (q < capacity node) as Hq.
    { rewrite <- Hnode. apply occupied_lookup_lt.
      unfold occupied_by in Hocc. by apply andb_true_iff in Hocc as [? _]. }
    destruct (hashmap_get_hit map k ukey q Hkey Hq Hocc)
      as (q' & _ & [Hdata _]%occupied_by_true & Hget).
    rewrite Hget in Hnull. injection Hnull as Hnull. by destruct Hdata.
Qed.

Lemma hashmap_delete_missing_key_witness :
  let map := exec one_bucket [OpSet all_ok "af"%string 1%N] in
  hashmap_get map "ab"%string = Ok NULL /\
  hashmap_delete map "ab"%string (Some 5%N) = Ok (false, Some 5%N, map).
Proof.
  intros map.
  assert (hashmap_get map "ab"%string = Ok NULL) as Hget
    by (vm_compute; reflexivity).
  split; [exact Hget |].
  apply (proj2 (hashmap_delete_missing_key map "ab"%string
                  {| pkey := 97; skey := 98 |} (Some 5%N)
                  ltac:(apply wf_mapb_true; vm_compute; reflexivity)
                  ltac:(vm_compute; reflexivity)) Hget).
  vm_compute. discriminate.
Defined.
